(** * Bulk messaging of the welfare application

    A shallow embedding of [BulkMessageService] (server, messaging module):
    its constructor, [send], [previewMessage] and the private helpers they
    call, together with the data types they read and write.

    The collaborators of the service are interfaces ([IRecipientResolver],
    [IMessageContextFactory], [IMessageTemplateResolver],
    [IMessageTransport]); each asynchronous method is a function on an
    abstract world [W] that returns how its promise settles and the next
    world.  The effect of a call is taken at the moment the call is made;
    the continuation after [await] runs later, when the scheduler resumes
    it.  Every call to a collaborator is recorded in a log.

    The code runs on one thread: between two [await]s a task runs alone.
    An asynchronous function is therefore cut at its [await]s, and the order
    in which the suspended tasks are resumed is an argument of the model (a
    schedule).  What is proved of [send] holds for every schedule unless
    said otherwise. *)

From Stdlib Require Import ZArith String.
From stdpp Require Import base option list sets gmap strings.

Local Open Scope string_scope.
Local Open Scope list_scope.

(** ** Data model (core/models/models.ts) *)

(** [Date] fields are milliseconds since the epoch. *)
Record IUser := mkUser {
  _id : string;
  createdAt : Z;
  updatedAt : Z;
  name : string;
  team : string;
  phone : string;
  email : string;
  joinedAt : Z
}.

(** An entry of [report.recipients]: [{ user: recipient._id, name: recipient.name }]. *)
Record RecipientEntry := mkRecipient {
  r_user : string;
  r_name : string
}.

(** An entry of [report.errors].  [e_recipientGroup] is [None] when the
    property is absent (a failed send), [e_user] and [e_name] are [None]
    when they are [null] (a failed group). *)
Record ErrorEntry := mkError {
  e_recipientGroup : option string;
  e_user : option string;
  e_name : option string;
  e_message : string
}.

Record BulkMessageReport := mkReport {
  errors : list ErrorEntry;
  numFailed : nat;
  numRecipients : nat;
  recipients : list RecipientEntry
}.

(** How a call ends: with a value, or with a thrown error (a rejected
    promise) of which the code only ever reads [e.message]. *)
Inductive Result (A : Type) :=
  | Ok (a : A)
  | Throw (message : string).
Arguments Ok {A} a.
Arguments Throw {A} message.

Definition isOk {A} (r : Result A) : bool :=
  match r with Ok _ => true | Throw _ => false end.

(** ** Collaborator interfaces *)

Module IRecipientResolver.
Record t (W : Type) := Build {
  canResolve : string -> bool;
  resolve : string -> W -> Result (list IUser) * W
}.
Arguments Build {W}.
Arguments canResolve {W}.
Arguments resolve {W}.
End IRecipientResolver.

Module IMessageContextFactory.
Record t (W C : Type) := Build {
  createContextFromUser : IUser -> W -> Result C * W
}.
Arguments Build {W C}.
Arguments createContextFromUser {W C}.
End IMessageContextFactory.

Module IMessageTemplateResolver.
Record t (W C : Type) := Build {
  resolve : C -> string -> W -> Result string * W
}.
Arguments Build {W C}.
Arguments resolve {W C}.
End IMessageTemplateResolver.

Module IMessageTransport.
Record t (W : Type) := Build {
  sendMessage : IUser -> string -> W -> Result unit * W
}.
Arguments Build {W}.
Arguments sendMessage {W}.
End IMessageTransport.

Module ISmsService.
Record t (W : Type) := Build {
  sendSms : string -> string -> W -> Result unit * W
}.
Arguments Build {W}.
Arguments sendSms {W}.
End ISmsService.

(** [LocalSmsService.sendSms] prints the message and resolves. *)
Definition LocalSmsService {W} : ISmsService.t W :=
  ISmsService.Build (fun _to _message w => (Ok tt, w)).

(** A call made to a collaborator. *)
Inductive Call (C : Type) :=
  | CallResolve (group : string)
  | CallCreateContext (user : IUser)
  | CallTemplate (context : C) (template : string)
  | CallSendMessage (recipient : IUser) (message : string).
Arguments CallResolve {C}.
Arguments CallCreateContext {C}.
Arguments CallTemplate {C}.
Arguments CallSendMessage {C}.

Record Env (W C : Type) := mkEnv {
  world : W;
  calls : list (Call C)
}.
Arguments mkEnv {W C}.
Arguments world {W C}.
Arguments calls {W C}.

(** The transport calls of a log, oldest first. *)
Definition transportCalls {C} (l : list (Call C)) : list (IUser * string) :=
  omap (fun c => match c with
                 | CallSendMessage u m => Some (u, m)
                 | _ => None
                 end) l.

Definition resolveCalls {C} (l : list (Call C)) : list string :=
  omap (fun c => match c with CallResolve g => Some g | _ => None end) l.

(** ** The service *)

Record BulkMessageServiceArgs (W C US : Type) := mkArgs {
  a_contextFactory : IMessageContextFactory.t W C;
  a_templateResolver : option (IMessageTemplateResolver.t W C);
  a_transport : option (IMessageTransport.t W);
  a_smsService : option (ISmsService.t W);
  a_recipientResolver : option (IRecipientResolver.t W);
  a_users : option US
}.
Arguments mkArgs {W C US}.
Arguments a_contextFactory {W C US}.
Arguments a_templateResolver {W C US}.
Arguments a_transport {W C US}.
Arguments a_smsService {W C US}.
Arguments a_recipientResolver {W C US}.
Arguments a_users {W C US}.

Record BulkMessageService (W C : Type) := mkService {
  recipientResolver : IRecipientResolver.t W;
  contextFactory : IMessageContextFactory.t W C;
  templateResolver : IMessageTemplateResolver.t W C;
  transport : IMessageTransport.t W
}.
Arguments mkService {W C}.
Arguments recipientResolver {W C}.
Arguments contextFactory {W C}.
Arguments templateResolver {W C}.
Arguments transport {W C}.

(** [!x] on an optional collaborator. *)
Definition absent {A} (o : option A) : bool :=
  match o with None => true | Some _ => false end.

(** ** BatchJobQueue *)

(** The queue class lives in the [util] module, which is not among the
    sources at hand; it is modelled from its description.  The handler is an
    asynchronous function: [start] gives the task of one item, and [step]
    runs a task from where it is suspended to its next [await] ([Some]) or
    to its end ([None]).  Nothing is assumed of the order in which the queue
    starts and resumes the tasks: a schedule decides it. *)
Section BatchJobQueue.

Context {T K S : Type}.
Variable start : T -> K.
Variable step : K -> S -> option K * S.
Variable bound : nat.

(** Modelled from the spec: "multiple items are processed concurrently",
    "completion order across items is unspecified".  Each number of the
    schedule picks which pending task runs its next segment (modulo the
    number of pending tasks); a task that ends leaves the list. *)
Fixpoint runTasks (sched : list nat) (pending : list K) (s : S) : list K * S :=
  match sched with
  | [] => (pending, s)
  | k :: sched' =>
      let i := k mod length pending in
      match pending !! i with
      | None => (pending, s)
      | Some t =>
          match step t s with
          | (Some t', s') => runTasks sched' (<[i := t']> pending) s'
          | (None, s') => runTasks sched' (delete i pending) s'
          end
      end
  end.

(** Modelled from the spec: the items pushed so far, and whether the end
    was signalled. *)
Record BatchJobQueue := mkQueue {
  queue : list T;
  eof : bool
}.

(** Modelled from the spec: "construction takes an async handler". *)
Definition newQueue : BatchJobQueue := {| queue := []; eof := false |}.

(** Modelled from the spec: "[push(item)] enqueues work". *)
Definition push (q : BatchJobQueue) (item : T) : BatchJobQueue :=
  {| queue := queue q ++ [item]; eof := eof q |}.

(** Modelled from the spec: "[signalEof()] marks no more items will be
    pushed". *)
Definition signalEof (q : BatchJobQueue) : BatchJobQueue :=
  {| queue := queue q; eof := true |}.

(** Modelled from the spec: "[run()] drains the queue, invoking the handler
    for every pushed item, and resolves only once all handlers have
    settled".  After the schedule, the tasks still pending are run to their
    end, first to last; [bound] is the largest number of segments of a
    task. *)
Definition run (q : BatchJobQueue) (sched : list nat) (s : S) : S :=
  snd (runTasks (sched ++ repeat 0 (bound * length (queue q)))
                (start <$> queue q) s).

End BatchJobQueue.

Section BulkMessage.

Context {W C US : Type}.

(** The default collaborators ([template-resolver], [recipient-resolver],
    [sms-transport]) live in modules of their own; the service only
    constructs them, so they are taken as given.  The two constructors
    receive the field of [args] as it is, present or not. *)
Variable MessageTemplateResolver : IMessageTemplateResolver.t W C.
Variable RecipientResolver : option US -> IRecipientResolver.t W.
Variable SmsMessageTransport : option (ISmsService.t W) -> IMessageTransport.t W.

(** Modelled from the spec: [getPreviewUser] ([preview-user] module) gives
    "a synthetic, non-persisted preview user"; it is taken to return the
    same user at every call. *)
Variable getPreviewUser : IUser.

Definition constructor (args : BulkMessageServiceArgs W C US)
  : Result (BulkMessageService W C) :=
  if absent (a_recipientResolver args) && absent (a_users args) then
    Throw "Bulk message args must provide either recipientsResolver or users"
  else if absent (a_transport args) && absent (a_smsService args) then
    Throw "Bulk message args must provide either transport or smsProvider"
  else
    Ok {| contextFactory := a_contextFactory args;
          templateResolver :=
            default MessageTemplateResolver (a_templateResolver args);
          recipientResolver :=
            default (RecipientResolver (a_users args)) (a_recipientResolver args);
          transport :=
            default (SmsMessageTransport (a_smsService args)) (a_transport args) |}.

(** *** Calls to the collaborators, logged *)

Definition M (A : Type) : Type := Env W C -> A * Env W C.

Definition ret {A} (a : A) : M A := fun e => (a, e).

Definition bind {A B} (m : M A) (k : A -> M B) : M B :=
  fun e => let '(a, e') := m e in k a e'.

Notation "'let!' x ':=' m 'in' k" := (bind m (fun x => k))
  (at level 10, x name, m at level 100, k at level 200).

Definition logged {A} (c : Call C) (f : W -> Result A * W) : M (Result A) :=
  fun e => let '(r, w) := f (world e) in
           (r, {| world := w; calls := calls e ++ [c] |}).

Variable this : BulkMessageService W C.

Definition callResolve (group : string) : M (Result (list IUser)) :=
  logged (CallResolve group)
         (IRecipientResolver.resolve (recipientResolver this) group).

Definition callCreateContext (user : IUser) : M (Result C) :=
  logged (CallCreateContext user)
         (IMessageContextFactory.createContextFromUser (contextFactory this) user).

Definition callTemplate (context : C) (template : string) : M (Result string) :=
  logged (CallTemplate context template)
         (IMessageTemplateResolver.resolve (templateResolver this) context template).

Definition callSendMessage (recipient : IUser) (message : string) : M (Result unit) :=
  logged (CallSendMessage recipient message)
         (IMessageTransport.sendMessage (transport this) recipient message).

(** *** previewMessage *)

(** [createMessageForUser] run on its own: a rejected [await] rejects the
    function's promise with the same error. *)
Definition createMessageForUser (user : IUser) (template : string)
  : M (Result string) :=
  let! r := callCreateContext user in
  match r with
  | Throw e => ret (Throw e)
  | Ok context => callTemplate context template
  end.

Definition previewMessage (messageTemplate : string) : M (Result string) :=
  let user := getPreviewUser in
  createMessageForUser user messageTemplate.

(** *** send, first part: resolving the groups *)

(** Appending to a list is [push]. *)
Definition recordGroupFailure (group message : string)
  (report : BulkMessageReport) : BulkMessageReport :=
  {| errors := errors report ++
       [ {| e_recipientGroup := Some group; e_user := None;
            e_name := None; e_message := message |} ];
     numFailed := numFailed report + 1;
     numRecipients := numRecipients report;
     recipients := recipients report |}.

(** The objects that the tasks of [getRecipients] share: the array
    [allRecipients], the set [recipientIds] and the report. *)
Record Store := mkStore {
  allRecipients : list IUser;
  recipientIds : gset string;
  report : BulkMessageReport
}.

(** The body of [recipients.forEach]. *)
Definition addRecipient (s : Store) (r : IUser) : Store :=
  if decide (_id r ∈ recipientIds s) then s
  else {| allRecipients := allRecipients s ++ [r];
          recipientIds := {[ _id r ]} ∪ recipientIds s;
          report := report s |}.

(** A task of [addRecipientsFromGroup] suspended at its [await]: the
    group, and how the promise of [resolve] settles. *)
Record GroupTask := mkGroupTask {
  g_group : string;
  g_settled : Result (list IUser)
}.

(** [addRecipientsFromGroup] up to its [await]: the resolver is called. *)
Definition addRecipientsFromGroup_call (group : string) : M GroupTask :=
  let! r := callResolve group in
  ret (mkGroupTask group r).

(** [addRecipientsFromGroup] from its [await] on: the [forEach], or the
    [catch] block. *)
Definition addRecipientsFromGroup_resume (s : Store) (t : GroupTask) : Store :=
  match g_settled t with
  | Ok recipients => fold_left addRecipient recipients s
  | Throw message =>
      {| allRecipients := allRecipients s;
         recipientIds := recipientIds s;
         report := recordGroupFailure (g_group t) message (report s) |}
  end.

Fixpoint mapM {A B} (f : A -> M B) (l : list A) : M (list B) :=
  match l with
  | [] => ret []
  | a :: l' =>
      let! b := f a in
      let! bs := mapM f l' in
      ret (b :: bs)
  end.

(** The order in which suspended tasks are resumed.  A schedule is a list
    of numbers; each picks one of the tasks still pending (modulo their
    number), and the tasks left when the schedule ends follow in order. *)
Fixpoint settleOrder {A} (sched : list nat) (pending : list A) : list A :=
  match sched with
  | [] => pending
  | k :: sched' =>
      let i := k mod length pending in
      match pending !! i with
      | Some t => t :: settleOrder sched' (delete i pending)
      | None => pending
      end
  end.

(** [getRecipients]: [recipientGroups.map] starts the tasks one after the
    other, each calling the resolver; [Promise.all] then waits while the
    tasks are resumed in the order their promises settle. *)
Definition getRecipients (recipientGroups : list string)
  (report0 : BulkMessageReport) (sched : list nat)
  : M (list IUser * BulkMessageReport) :=
  let! tasks := mapM addRecipientsFromGroup_call recipientGroups in
  let s := fold_left addRecipientsFromGroup_resume (settleOrder sched tasks)
             {| allRecipients := []; recipientIds := ∅; report := report0 |} in
  ret (allRecipients s, report s).

(** *** send, second part: sending to the recipients *)

Definition recordSent (recipient : IUser) (report : BulkMessageReport)
  : BulkMessageReport :=
  {| errors := errors report;
     numFailed := numFailed report;
     numRecipients := numRecipients report + 1;
     recipients := recipients report ++
       [ {| r_user := _id recipient; r_name := name recipient |} ] |}.

Definition recordFailure (recipient : IUser) (message : string)
  (report : BulkMessageReport) : BulkMessageReport :=
  {| errors := errors report ++
       [ {| e_recipientGroup := None; e_user := Some (_id recipient);
            e_name := Some (name recipient); e_message := message |} ];
     numFailed := numFailed report + 1;
     numRecipients := numRecipients report;
     recipients := recipients report |}.

(** Where a task of [sendToRecipient] stands: not yet started, or suspended
    at one of the three [await]s (the first two inside
    [createMessageForUser]) with the way the awaited promise settles.  The
    [message] stays in scope while the transport is awaited. *)
Inductive SendTask :=
  | AtStart (recipient : IUser)
  | AwaitContext (recipient : IUser) (settled : Result C)
  | AwaitTemplate (recipient : IUser) (settled : Result string)
  | AwaitTransport (recipient : IUser) (message : string) (settled : Result unit).

Definition taskRecipient (t : SendTask) : IUser :=
  match t with
  | AtStart u | AwaitContext u _ | AwaitTemplate u _ | AwaitTransport u _ _ => u
  end.

(** One segment of [sendToRecipient]: from the start or from an [await]
    to the next [await], or to the end of the [try] or [catch] block. *)
Definition sendToRecipient_step (template : string) (t : SendTask)
  (s : BulkMessageReport * Env W C)
  : option SendTask * (BulkMessageReport * Env W C) :=
  let '(report, e) := s in
  match t with
  | AtStart recipient =>
      let '(r, e') := callCreateContext recipient e in
      (Some (AwaitContext recipient r), (report, e'))
  | AwaitContext recipient (Ok context) =>
      let '(r, e') := callTemplate context template e in
      (Some (AwaitTemplate recipient r), (report, e'))
  | AwaitTemplate recipient (Ok message) =>
      let '(r, e') := callSendMessage recipient message e in
      (Some (AwaitTransport recipient message r), (report, e'))
  | AwaitTransport recipient _ (Ok _) =>
      (None, (recordSent recipient report, e))
  | AwaitContext recipient (Throw m)
  | AwaitTemplate recipient (Throw m)
  | AwaitTransport recipient _ (Throw m) =>
      (None, (recordFailure recipient m report, e))
  end.

(** [sendToRecipients]: every recipient is pushed, the end is signalled,
    and the queue is run. *)
Definition sendToRecipients (recipients : list IUser) (messageTemplate : string)
  (report0 : BulkMessageReport) (sched : list nat) : M BulkMessageReport :=
  fun e =>
    let queue := newQueue in
    let queue := fold_left push recipients queue in
    let queue := signalEof queue in
    run AtStart (sendToRecipient_step messageTemplate) 4 queue sched (report0, e).

Definition invalidRecipients (invalidGroups : list string) : string :=
  "Invalid recipients: " +:+
  String.concat ", " (map (fun g => "'" +:+ g +:+ "'") invalidGroups).

(** [send].  [sched1] is the order in which the group resolutions settle,
    [sched2] the schedule of the sends. *)
Definition send (recipientGroups : list string) (messageTemplate : string)
  (sched1 sched2 : list nat) : M (Result BulkMessageReport) :=
  let invalidGroups :=
    List.filter
      (fun group => negb (IRecipientResolver.canResolve (recipientResolver this) group))
      recipientGroups in
  match length invalidGroups with
  | S _ => ret (Throw (invalidRecipients invalidGroups))
  | O =>
      let report :=
        {| errors := []; numFailed := 0; numRecipients := 0; recipients := [] |} in
      let! found := getRecipients recipientGroups report sched1 in
      let '(allRecipients, report) := found in
      let! report := sendToRecipients allRecipients messageTemplate report sched2 in
      ret (Ok report)
  end.

End BulkMessage.

(** ** What a run is measured against *)

(** One pass of [sendToRecipient] over a recipient, seen from outside: the
    message handed to the transport (if the pass got that far) and the way
    the pass ended. *)
Record Attempt := mkAttempt {
  a_recipient : IUser;
  a_sent : option string;
  a_result : Result unit
}.

Definition recordAttempt (report : BulkMessageReport) (a : Attempt)
  : BulkMessageReport :=
  match a_result a with
  | Ok _ => recordSent (a_recipient a) report
  | Throw m => recordFailure (a_recipient a) m report
  end.

Definition attemptSent (a : Attempt) : option (IUser * string) :=
  (fun m => (a_recipient a, m)) <$> a_sent a.

Definition attemptEntry (a : Attempt) : option RecipientEntry :=
  match a_result a with
  | Ok _ => Some {| r_user := _id (a_recipient a); r_name := name (a_recipient a) |}
  | Throw _ => None
  end.

Definition attemptError (a : Attempt) : option ErrorEntry :=
  match a_result a with
  | Ok _ => None
  | Throw m => Some {| e_recipientGroup := None; e_user := Some (_id (a_recipient a));
                       e_name := Some (name (a_recipient a)); e_message := m |}
  end.

(** The users a settled group task contributes, and its error entry. *)
Definition groupUsers (t : GroupTask) : list IUser :=
  match g_settled t with Ok l => l | Throw _ => [] end.

Definition groupError (t : GroupTask) : option ErrorEntry :=
  match g_settled t with
  | Ok _ => None
  | Throw m => Some {| e_recipientGroup := Some (g_group t); e_user := None;
                       e_name := None; e_message := m |}
  end.

(** Deduplication by [_id] that keeps the first occurrence, as a list
    function: the head stays, and its [_id] is struck from the rest. *)
Fixpoint dedupById (l : list IUser) : list IUser :=
  match l with
  | [] => []
  | u :: l' => u :: filter (fun v => _id v ≠ _id u) (dedupById l')
  end.

(** How often a value occurs in a list. *)
Definition entryOf (u : IUser) : RecipientEntry :=
  {| r_user := _id u; r_name := name u |}.

(** The report before anything is recorded. *)
Definition emptyReport : BulkMessageReport :=
  {| errors := []; numFailed := 0; numRecipients := 0; recipients := [] |}.

Definition occurrences {A} `{EqDecision A} (x : A) (l : list A) : nat :=
  length (filter (fun y => y = x) l).

Definition sentTo {C} (id : string) (l : list (Call C)) : nat :=
  occurrences id ((fun c => _id (fst c)) <$> transportCalls l).

(** The set of ids mirrors the array. *)
Definition storeOk (s : Store) : Prop :=
  forall id, id ∈ recipientIds s <-> id ∈ (_id <$> allRecipients s).

Section Settling.

Context {W C : Type}.
Variable this : BulkMessageService W C.
Variable template : string.

(** The group tasks of a call of [send], in the order the resolver is
    called, each with the way its resolution settles. *)
Definition resolutions (recipientGroups : list string) (e : Env W C)
  : list GroupTask :=
  fst (mapM (addRecipientsFromGroup_call this) recipientGroups e).

(** What the collaborators can answer, in some world. *)
Definition contextSettles (u : IUser) (r : Result C) : Prop :=
  exists w, fst (IMessageContextFactory.createContextFromUser
                   (contextFactory this) u w) = r.

Definition templateSettles (u : IUser) (r : Result string) : Prop :=
  exists context w,
    contextSettles u (Ok context) /\
    fst (IMessageTemplateResolver.resolve (templateResolver this)
           context template w) = r.

Definition transportSettles (u : IUser) (message : string) (r : Result unit) : Prop :=
  templateSettles u (Ok message) /\
  exists w, fst (IMessageTransport.sendMessage (transport this) u message w) = r.

Definition justified (a : Attempt) : Prop :=
  match a_sent a with
  | Some message => transportSettles (a_recipient a) message (a_result a)
  | None =>
      exists m, a_result a = Throw m /\
        (contextSettles (a_recipient a) (Throw m) \/
         templateSettles (a_recipient a) (Throw m))
  end.

Definition suspendedOk (t : SendTask (C:=C)) : Prop :=
  match t with
  | AtStart _ => True
  | AwaitContext u r => contextSettles u r
  | AwaitTemplate u r => templateSettles u r
  | AwaitTransport u message r => transportSettles u message r
  end.

Definition taskSent (t : SendTask (C:=C)) : option (IUser * string) :=
  match t with
  | AwaitTransport u message _ => Some (u, message)
  | _ => None
  end.

(** A user for whom a collaborator answers well in every world. *)
Definition contextSucceeds (u : IUser) : Prop :=
  forall w, isOk (fst (IMessageContextFactory.createContextFromUser
                         (contextFactory this) u w)) = true.

Definition renderingSucceeds (u : IUser) : Prop :=
  forall context w w',
    fst (IMessageContextFactory.createContextFromUser
           (contextFactory this) u w) = Ok context ->
    isOk (fst (IMessageTemplateResolver.resolve (templateResolver this)
                 context template w')) = true.

Definition transportSucceeds (u : IUser) : Prop :=
  forall message w,
    isOk (fst (IMessageTransport.sendMessage (transport this) u message w)) = true.

Definition transportFails (u : IUser) : Prop :=
  forall message w,
    isOk (fst (IMessageTransport.sendMessage (transport this) u message w)) = false.

Definition deliverable (u : IUser) : Prop :=
  contextSucceeds u /\ renderingSucceeds u /\ transportSucceeds u.

(** The number of segments a task still has to run. *)
Definition segments (t : SendTask (C:=C)) : nat :=
  match t with
  | AtStart _ => 4
  | AwaitContext _ _ => 3
  | AwaitTemplate _ _ => 2
  | AwaitTransport _ _ _ => 1
  end.

(** What holds of the pending tasks, the report and the log at every
    moment of [sendToRecipients] started on [rs], [report0] and [e0].  [R]
    is how the recipients done and pending compare with [rs]: up to their
    order in general, in order when the tasks run one after the other. *)
Definition sendInv (R : relation (list IUser)) (rs : list IUser)
  (report0 : BulkMessageReport)
  (e0 : Env W C) (pending : list (SendTask (C:=C)))
  (s : BulkMessageReport * Env W C) : Prop :=
  exists attempts : list Attempt,
    fst s = fold_left recordAttempt attempts report0 /\
    R ((a_recipient <$> attempts) ++ (taskRecipient <$> pending)) rs /\
    Forall justified attempts /\
    Forall suspendedOk pending /\
    transportCalls (calls (snd s)) ≡ₚ
      transportCalls (calls e0) ++ omap attemptSent attempts ++ omap taskSent pending /\
    resolveCalls (calls (snd s)) = resolveCalls (calls e0).

End Settling.

(** ** Two statements that some runs refute *)

(** "A user that the resolver returns for two different requested groups
    receives exactly one transport delivery and is counted exactly once in
    [numRecipients]", read on one call of [send]. *)
Definition sharedUserDeliveredOnce {W C} (this : BulkMessageService W C)
  (recipientGroups : list string) (template : string)
  (sched1 sched2 : list nat) (e : Env W C) : Prop :=
  forall g1 g2 l1 l2 id report e',
    g1 <> g2 ->
    mkGroupTask g1 (Ok l1) ∈ resolutions this recipientGroups e ->
    mkGroupTask g2 (Ok l2) ∈ resolutions this recipientGroups e ->
    id ∈ (_id <$> l1) ->
    id ∈ (_id <$> l2) ->
    send this recipientGroups template sched1 sched2 e = (Ok report, e') ->
    sentTo id (calls e') = sentTo id (calls e) + 1 /\
    occurrences id (r_user <$> recipients report) = 1.

(** "[send] returns exactly this report", whatever the schedule. *)
Definition returnsExactly {W C} (this : BulkMessageService W C)
  (recipientGroups : list string) (template : string) (e : Env W C)
  (expected : BulkMessageReport) : Prop :=
  forall sched1 sched2,
    fst (send this recipientGroups template sched1 sched2 e) = Ok expected.

(** ** Concrete collaborators *)

Module Sample.

Definition user1 : IUser := mkUser "1" 0 0 "A" "teamA" "0700" "a@x" 0.
Definition user2 : IUser := mkUser "2" 0 0 "B" "teamA" "0701" "b@x" 0.

Definition known : list string := ["teamA"; "a"; "b"; "dup"; "broken"].

Definition resolver : IRecipientResolver.t unit :=
  IRecipientResolver.Build
    (fun g => bool_decide (g ∈ known))
    (fun g w =>
       if decide (g = "teamA") then (Ok [user1; user2], w)
       else if decide (g = "a") then (Ok [user1], w)
       else if decide (g = "b") then (Ok [user1], w)
       else if decide (g = "dup") then (Ok [user1; user1; user2], w)
       else if decide (g = "broken") then (Throw "lookup failed", w)
       else (Throw "unknown group", w)).

Definition factory : IMessageContextFactory.t unit IUser :=
  IMessageContextFactory.Build (fun u w => (Ok u, w)).

Definition factoryFails : IMessageContextFactory.t unit IUser :=
  IMessageContextFactory.Build (fun u w => (Throw "no context", w)).

Definition renderer : IMessageTemplateResolver.t unit IUser :=
  IMessageTemplateResolver.Build (fun c t w => (Ok ("Hi " +:+ name c), w)).

Definition rendererFails : IMessageTemplateResolver.t unit IUser :=
  IMessageTemplateResolver.Build (fun c t w => (Throw "bad template", w)).

Definition transportOk : IMessageTransport.t unit :=
  IMessageTransport.Build (fun u m w => (Ok tt, w)).

(** A transport that fails for user 2 only. *)
Definition transportFails2 : IMessageTransport.t unit :=
  IMessageTransport.Build
    (fun u m w => if decide (_id u = "2") then (Throw "network down", w)
                  else (Ok tt, w)).

Definition service : BulkMessageService unit IUser :=
  mkService resolver factory renderer transportOk.

Definition serviceNoContext : BulkMessageService unit IUser :=
  mkService resolver factoryFails renderer transportOk.

Definition serviceBadTemplate : BulkMessageService unit IUser :=
  mkService resolver factory rendererFails transportOk.

Definition serviceFails2 : BulkMessageService unit IUser :=
  mkService resolver factory renderer transportFails2.

Definition env0 : Env unit IUser := mkEnv tt [].

Definition previewUser : IUser :=
  mkUser "preview" 0 0 "John Doe" "preview" "0700000000" "john@x" 0.

Definition defaultResolver (users : option unit) : IRecipientResolver.t unit :=
  resolver.

Definition defaultTransport (sms : option (ISmsService.t unit))
  : IMessageTransport.t unit :=
  match sms with
  | Some s => IMessageTransport.Build
                (fun u m w => ISmsService.sendSms s (phone u) m w)
  | None => transportOk
  end.

Definition argsWithUsersAndSms : BulkMessageServiceArgs unit IUser unit :=
  mkArgs factory None None (Some LocalSmsService) None (Some tt).

End Sample.

(** ** The starts of [sendToRecipient] in a log *)

(** Every pass of [sendToRecipient] begins with one call of
    [createContextFromUser] on its recipient, and nothing else calls it
    during [send]: these calls count the passes. *)
Definition contextCalls {C} (l : list (Call C)) : list IUser :=
  omap (fun c => match c with CallCreateContext u => Some u | _ => None end) l.

Definition startedFor {C} (id : string) (l : list (Call C)) : nat :=
  occurrences id (_id <$> contextCalls l).

(** The recipient of a task that has not started yet. *)
Definition notStarted {C} (t : SendTask (C:=C)) : option IUser :=
  match t with
  | AtStart u => Some u
  | _ => None
  end.

(** ** Collaborators that always fail, or never look at the world *)

Section Collaborators.

Context {W C : Type}.
Variable this : BulkMessageService W C.
Variable template : string.

Definition contextFails (u : IUser) : Prop :=
  forall w, isOk (fst (IMessageContextFactory.createContextFromUser
                         (contextFactory this) u w)) = false.

Definition renderingFails (u : IUser) : Prop :=
  forall context w w',
    fst (IMessageContextFactory.createContextFromUser
           (contextFactory this) u w) = Ok context ->
    isOk (fst (IMessageTemplateResolver.resolve (templateResolver this)
                 context template w')) = false.

(** The answers of the context factory, the template resolver and the
    transport do not depend on the world. *)
Definition worldIndependent : Prop :=
  (forall u w w',
     fst (IMessageContextFactory.createContextFromUser (contextFactory this) u w) =
     fst (IMessageContextFactory.createContextFromUser (contextFactory this) u w')) /\
  (forall c t w w',
     fst (IMessageTemplateResolver.resolve (templateResolver this) c t w) =
     fst (IMessageTemplateResolver.resolve (templateResolver this) c t w')) /\
  (forall u m w w',
     fst (IMessageTransport.sendMessage (transport this) u m w) =
     fst (IMessageTransport.sendMessage (transport this) u m w')).

(** Where the failure recorded for a user comes from. *)
Definition failureOf (u : IUser) (m : string) : Prop :=
  contextSettles this u (Throw m) \/
  templateSettles this template u (Throw m) \/
  exists message, transportSettles this template u message (Throw m).

End Collaborators.

(** ** Application configuration (config module) *)

Record AppConfig (num : Type) := mkAppConfig {
  port : num;
  dbUri : string;
  dbName : string;
  webAppBaseUrl : string;
  smsProvider : string;
  atUsername : string;
  atApiKey : string;
  atSmsSender : string;
  atWebhooksRoot : string;
  flutterwaveSecretKey : string;
  flutterwaveLogoUrl : string;
  flutterwaveRedirectUrl : string;
  flutterwaveWebhooksRoot : string
}.
Arguments mkAppConfig {num}.
Arguments port {num}.
Arguments dbUri {num}.
Arguments dbName {num}.
Arguments webAppBaseUrl {num}.
Arguments smsProvider {num}.
Arguments atUsername {num}.
Arguments atApiKey {num}.
Arguments atSmsSender {num}.
Arguments atWebhooksRoot {num}.
Arguments flutterwaveSecretKey {num}.
Arguments flutterwaveLogoUrl {num}.
Arguments flutterwaveRedirectUrl {num}.
Arguments flutterwaveWebhooksRoot {num}.

(** [v || d] for a string [v] that may be [undefined]: [undefined] and the
    empty string are falsy. *)
Definition orString (v : option string) (d : string) : string :=
  match v with
  | Some s => if decide (s = "") then d else s
  | None => d
  end.

Section AppConfig.

(** The numbers of the language: [Number(s)], the truthiness of a number
    (neither zero nor [NaN]) and the literal [4000] are taken as given. *)
Context {num : Type}.
Variable Number : string -> num.
Variable truthy : num -> bool.
Variable fourThousand : num.

(** [(v && Number(v)) || 4000]: a missing or empty [v] is falsy and so is
    the left operand of [||]; otherwise the left operand is [Number(v)]. *)
Definition portOf (v : option string) : num :=
  match v with
  | Some s =>
      if decide (s = "") then fourThousand
      else if truthy (Number s) then Number s
      else fourThousand
  | None => fourThousand
  end.

(** [env: Record<string, string>] is a finite map; a missing property reads
    as [undefined]. *)
Definition loadAppConfigFrom (env : gmap string string) : AppConfig num :=
  let webAppBaseUrl := orString (env !! "WEB_APP_BASE_URL") "http://localhost:3000" in
  {| dbName := orString (env !! "DB_NAME") "techies_welfare";
     dbUri := orString (env !! "DB_URL") "mongodb://localhost:27017/techies_welfare";
     port := portOf (env !! "PORT");
     webAppBaseUrl := webAppBaseUrl;
     smsProvider := orString (env !! "SMS_PROVIDER") "local";
     atApiKey := orString (env !! "AT_API_KEY") "";
     atUsername := orString (env !! "AT_USERNAME") "sandbox";
     atWebhooksRoot := orString (env !! "AT_WEBHOOKS") "/webhooks/at";
     atSmsSender := orString (env !! "AT_SMS_SENDER") "";
     flutterwaveLogoUrl := webAppBaseUrl +:+ "/img/logo.png";
     flutterwaveRedirectUrl := webAppBaseUrl +:+ "/post-payment/flutterwave";
     flutterwaveSecretKey := orString (env !! "FLUTTERWAVE_SECRET_KEY") "";
     flutterwaveWebhooksRoot :=
       orString (env !! "FLUTTERWAVE_WEBHOOKS") "/webhooks/flutterwave" |}.

End AppConfig.

(** The environment variables that [loadAppConfigFrom] reads. *)
Definition configKeys : list string :=
  ["WEB_APP_BASE_URL"; "DB_NAME"; "DB_URL"; "PORT"; "SMS_PROVIDER";
   "AT_API_KEY"; "AT_USERNAME"; "AT_WEBHOOKS"; "AT_SMS_SENDER";
   "FLUTTERWAVE_SECRET_KEY"; "FLUTTERWAVE_WEBHOOKS"].

(** Numbers for the examples only, not the numbers of the language: [None]
    is [NaN]; a string of decimal digits reads as its exact value, anything
    else (a sign, a fraction, an exponent, blanks) as [NaN].  The theorems
    on [loadAppConfigFrom] hold for every [Number]. *)
Module SampleNumber.

Fixpoint digits (s : string) (acc : Z) : option Z :=
  match s with
  | EmptyString => Some acc
  | String c s' =>
      let n := (Z.of_nat (Ascii.nat_of_ascii c) - 48)%Z in
      if ((0 <=? n) && (n <=? 9))%Z then digits s' (10 * acc + n)%Z else None
  end.

Definition Number (s : string) : option Z := digits s 0.

Definition truthy (n : option Z) : bool :=
  match n with
  | Some z => negb (z =? 0)%Z
  | None => false
  end.

Definition env1 : gmap string string :=
  <["PORT" := "8080"]> (<["SMS_PROVIDER" := "twilio"]> (<["DB_NAME" := ""]> ∅)).

End SampleNumber.

(** * Properties *)

(** ** The scheduler *)

Section Scheduler.

Context {K S : Type}.
Variable step : K -> S -> option K * S.

Lemma lookup_mod_None {A} (l : list A) (k : nat) :
  l !! (k mod length l) = None -> l = [].
Proof.
  destruct l as [|a l]; [done|].
  intros H. apply lookup_ge_None in H.
  pose proof (Nat.mod_upper_bound k (length (a :: l))) as Hlt.
  simpl in *. lia.
Qed.

Lemma runTasks_nil sched (s : S) : runTasks step sched [] s = ([], s).
Proof. destruct sched; reflexivity. Qed.

Lemma runTasks_head sched t pending (s : S) :
  runTasks step (0 :: sched) (t :: pending) s =
  match step t s with
  | (Some t', s') => runTasks step sched (t' :: pending) s'
  | (None, s') => runTasks step sched pending s'
  end.
Proof. simpl. by rewrite Nat.sub_diag. Qed.

Lemma runTasks_app sched1 sched2 pending (s : S) :
  runTasks step (sched1 ++ sched2) pending s =
  runTasks step sched2 (fst (runTasks step sched1 pending s))
                       (snd (runTasks step sched1 pending s)).
Proof.
  revert pending s. induction sched1 as [|k sched1 IH]; intros pending s; [done|].
  simpl. destruct (pending !! (k mod length pending)) as [t|] eqn:Hl.
  - destruct (step t s) as [[t'|] s']; apply IH.
  - apply lookup_mod_None in Hl. subst pending. simpl.
    by rewrite runTasks_nil.
Qed.

Section Invariant.

Variable I : list K -> S -> Prop.
Hypothesis I_perm : forall p p' s, p ≡ₚ p' -> I p s -> I p' s.
Hypothesis I_step : forall t rest s,
  I (t :: rest) s ->
  match step t s with
  | (Some t', s') => I (t' :: rest) s'
  | (None, s') => I rest s'
  end.

Lemma insert_Permutation_delete {A} (l : list A) i x y :
  l !! i = Some x -> <[i:=y]> l ≡ₚ y :: delete i l.
Proof.
  revert i. induction l as [|a l IH]; intros [|i] H; simplify_eq/=; [done|].
  rewrite (IH _ H). apply Permutation_swap.
Qed.

Lemma runTasks_invariant sched pending s :
  I pending s ->
  I (fst (runTasks step sched pending s)) (snd (runTasks step sched pending s)).
Proof.
  revert pending s. induction sched as [|k sched IH]; intros pending s HI; [done|].
  simpl. destruct (pending !! (k mod length pending)) as [t|] eqn:Hl; [|done].
  assert (I (t :: delete (k mod length pending) pending) s) as HI'.
  { eapply I_perm; [|exact HI]. by apply delete_Permutation. }
  apply I_step in HI'.
  destruct (step t s) as [[t'|] s']; apply IH; [|done].
  eapply I_perm; [|exact HI'].
  symmetry. by eapply insert_Permutation_delete.
Qed.

End Invariant.

Lemma runTasks_head_invariant (I : list K -> S -> Prop) n pending s :
  (forall t rest s,
     I (t :: rest) s ->
     match step t s with
     | (Some t', s') => I (t' :: rest) s'
     | (None, s') => I rest s'
     end) ->
  I pending s ->
  I (fst (runTasks step (repeat 0 n) pending s))
    (snd (runTasks step (repeat 0 n) pending s)).
Proof.
  intros I_step. revert pending s.
  induction n as [|n IH]; intros pending s HI; [done|].
  destruct pending as [|t p]; [done|].
  change (repeat 0 (Datatypes.S n)) with (0 :: repeat 0 n).
  simpl runTasks. rewrite Nat.sub_diag. simpl.
  apply I_step in HI.
  destruct (step t s) as [[t'|] s']; by apply IH.
Qed.

Section Drained.

Variable size : K -> nat.
Hypothesis size_step : forall t s,
  match step t s with
  | (Some t', _) => size t' < size t
  | (None, _) => 0 < size t
  end.

Lemma total_cons t p :
  sum_list (size <$> t :: p) = size t + sum_list (size <$> p).
Proof. reflexivity. Qed.

Lemma runTasks_total sched pending s :
  sum_list (size <$> fst (runTasks step sched pending s)) <= sum_list (size <$> pending).
Proof.
  apply (runTasks_invariant
           (fun p _ => sum_list (size <$> p) <= sum_list (size <$> pending))).
  - intros p p' _ Hp. by rewrite Hp.
  - intros t rest s0 H. pose proof (size_step t s0) as Hs.
    destruct (step t s0) as [[t'|] s']; rewrite !total_cons in *; lia.
  - done.
Qed.

Lemma runTasks_drain n pending s :
  sum_list (size <$> pending) <= n ->
  fst (runTasks step (repeat 0 n) pending s) = [].
Proof.
  revert pending s. induction n as [|n IH]; intros pending s Hn.
  - destruct pending as [|t p]; [done|].
    pose proof (size_step t s) as Hs. rewrite total_cons in Hn.
    destruct (step t s) as [[t'|] s']; lia.
  - destruct pending as [|t p]; [done|].
    pose proof (size_step t s) as Hs. rewrite total_cons in Hn.
    change (repeat 0 (Datatypes.S n)) with (0 :: repeat 0 n).
    simpl runTasks. rewrite Nat.sub_diag. simpl.
    destruct (step t s) as [[t'|] s']; apply IH; rewrite ?total_cons; lia.
Qed.

Lemma run_drained {T} (start : T -> K) bound (q : BatchJobQueue) sched s :
  (forall x, size (start x) <= bound) ->
  fst (runTasks step (sched ++ repeat 0 (bound * length (queue q)))
         (start <$> queue q) s) = [].
Proof.
  intros Hb. rewrite runTasks_app. apply runTasks_drain.
  etrans; [apply runTasks_total|].
  induction (queue q) as [|x l IHl]; [simpl; lia|].
  rewrite fmap_cons, total_cons, length_cons. specialize (Hb x). lia.
Qed.

End Drained.

End Scheduler.

(** ** Sending: what every schedule preserves *)

Section Sending.

Context {W C : Type}.
Variable this : BulkMessageService W C.
Variable template : string.

Lemma transportCalls_snoc (l : list (Call C)) c :
  transportCalls (l ++ [c]) =
  transportCalls l ++ match c with
                      | CallSendMessage u m => [(u, m)]
                      | _ => []
                      end.
Proof. unfold transportCalls. rewrite omap_app. by destruct c. Qed.

Lemma resolveCalls_snoc (l : list (Call C)) c :
  resolveCalls (l ++ [c]) =
  resolveCalls l ++ match c with CallResolve g => [g] | _ => [] end.
Proof. unfold resolveCalls. rewrite omap_app. by destruct c. Qed.

Section Invariant.

Variable R : relation (list IUser).
Hypothesis R_refl : forall l, R l l.
Variable rs : list IUser.
Variable report0 : BulkMessageReport.
Variable e0 : Env W C.

Lemma sendInv_init e :
  transportCalls (calls e) = transportCalls (calls e0) ->
  resolveCalls (calls e) = resolveCalls (calls e0) ->
  sendInv this template R rs report0 e0 (AtStart <$> rs) (report0, e).
Proof.
  intros Ht Hr. exists []. simpl. repeat split; try done.
  - rewrite <- list_fmap_compose. by rewrite list_fmap_id.
  - apply Forall_fmap, Forall_true. done.
  - rewrite Ht. replace (omap taskSent (AtStart (C:=C) <$> rs)) with (@nil (IUser * string)).
    + by rewrite !app_nil_r.
    + clear. induction rs as [|u l IH]; [done|]. by rewrite fmap_cons.
Qed.

Lemma sendInv_step t rest s :
  sendInv this template R rs report0 e0 (t :: rest) s ->
  match sendToRecipient_step this template t s with
  | (Some t', s') => sendInv this template R rs report0 e0 (t' :: rest) s'
  | (None, s') => sendInv this template R rs report0 e0 rest s'
  end.
Proof.
  destruct s as [rep e].
  intros (attempts & Hrep & Hperm & Hj & Hok & Hcalls & Hres).
  apply Forall_cons in Hok as [Ht Hok]. simpl in Hrep, Hres.
  destruct t as [u | u [context|m] | u [message|m] | u message [[]|m]];
    simpl in Hcalls, Hperm, Ht;
    unfold sendToRecipient_step, callCreateContext, callTemplate, callSendMessage, logged.
  - (* the handler starts: the context factory is called *)
    destruct (IMessageContextFactory.createContextFromUser (contextFactory this) u (world e))
      as [r w] eqn:E.
    exists attempts. cbn [fst snd calls world].
    rewrite transportCalls_snoc, resolveCalls_snoc, !app_nil_r.
    repeat split; try done.
    apply Forall_cons; split; [|done]. exists (world e). by rewrite E.
  - (* the context is there: the template resolver is called *)
    destruct (IMessageTemplateResolver.resolve (templateResolver this) context template (world e))
      as [r w] eqn:E.
    exists attempts. cbn [fst snd calls world].
    rewrite transportCalls_snoc, resolveCalls_snoc, !app_nil_r.
    repeat split; try done.
    apply Forall_cons; split; [|done].
    exists context, (world e). split; [exact Ht | by rewrite E].
  - (* no context: the catch block *)
    exists (attempts ++ [mkAttempt u None (Throw m)]). cbn [fst snd].
    rewrite fold_left_app, fmap_app, omap_app, Forall_app, Forall_singleton.
    repeat split; try done.
    + by rewrite Hrep.
    + simpl in *. by rewrite <- app_assoc.
    + exists m. split; [done|]. by left.
    + rewrite Hcalls. simpl. by rewrite app_nil_r.
  - (* the message is there: the transport is called *)
    destruct (IMessageTransport.sendMessage (transport this) u message (world e))
      as [r w] eqn:E.
    exists attempts. cbn [fst snd calls world].
    rewrite transportCalls_snoc, resolveCalls_snoc, !app_nil_r.
    repeat split; try done.
    + apply Forall_cons; split; [|done].
      split; [exact Ht|]. exists (world e). by rewrite E.
    + rewrite Hcalls. simpl. solve_Permutation.
  - (* no message: the catch block *)
    exists (attempts ++ [mkAttempt u None (Throw m)]). cbn [fst snd].
    rewrite fold_left_app, fmap_app, omap_app, Forall_app, Forall_singleton.
    repeat split; try done.
    + by rewrite Hrep.
    + simpl in *. by rewrite <- app_assoc.
    + exists m. split; [done|]. by right.
    + rewrite Hcalls. simpl. by rewrite app_nil_r.
  - (* delivered *)
    exists (attempts ++ [mkAttempt u (Some message) (Ok ())]). cbn [fst snd].
    rewrite fold_left_app, fmap_app, omap_app, Forall_app, Forall_singleton.
    repeat split; try done; try apply Ht.
    + by rewrite Hrep.
    + simpl in *. by rewrite <- app_assoc.
    + rewrite Hcalls. simpl. by rewrite <- app_assoc.
  - (* the transport failed: the catch block *)
    exists (attempts ++ [mkAttempt u (Some message) (Throw m)]). cbn [fst snd].
    rewrite fold_left_app, fmap_app, omap_app, Forall_app, Forall_singleton.
    repeat split; try done; try apply Ht.
    + by rewrite Hrep.
    + simpl in *. by rewrite <- app_assoc.
    + rewrite Hcalls. simpl. by rewrite <- app_assoc.
Qed.

Lemma sendInv_perm p p' s :
  p ≡ₚ p' ->
  sendInv this template (≡ₚ) rs report0 e0 p s ->
  sendInv this template (≡ₚ) rs report0 e0 p' s.
Proof.
  intros Hp (attempts & Hrep & Hperm & Hj & Hok & Hcalls & Hres).
  exists attempts. repeat split; try done.
  - by rewrite <- Hp.
  - by rewrite <- Hp.
  - by rewrite <- Hp.
Qed.

End Invariant.

End Sending.

(** ** Deduplication *)

Section Dedup.

Implicit Types (l : list IUser) (u v : IUser) (id : string).

Lemma ids_filter l id (P : IUser -> Prop) `{!forall v, Decision (P v)} :
  id ∈ (_id <$> filter P l) -> id ∈ (_id <$> l).
Proof.
  rewrite !list_elem_of_fmap. intros (v & -> & Hv).
  apply list_elem_of_filter in Hv. exists v. tauto.
Qed.

Lemma dedupById_ids l id : id ∈ (_id <$> dedupById l) <-> id ∈ (_id <$> l).
Proof.
  induction l as [|u l IH]; [done|].
  simpl. rewrite !elem_of_cons, <- IH. split.
  - intros [->|Hx]; [by left|]. right. by eapply ids_filter.
  - intros [->|Hx]; [by left|].
    destruct (decide (id = _id u)) as [->|Hne]; [by left|]. right.
    apply list_elem_of_fmap in Hx as (v & -> & Hv).
    apply list_elem_of_fmap_2, list_elem_of_filter. done.
Qed.

Lemma NoDup_ids_filter l (P : IUser -> Prop) `{!forall v, Decision (P v)} :
  NoDup (_id <$> l) -> NoDup (_id <$> filter P l).
Proof.
  induction l as [|u l IH]; [done|].
  rewrite fmap_cons, NoDup_cons. intros [Hu Hl].
  rewrite filter_cons. case_decide; [|by apply IH].
  rewrite fmap_cons, NoDup_cons. split; [|by apply IH].
  intros Hx. apply Hu. by eapply ids_filter.
Qed.

Lemma dedupById_NoDup l : NoDup (_id <$> dedupById l).
Proof.
  induction l as [|u l IH]; [constructor|].
  simpl. apply NoDup_cons. split; [|by apply NoDup_ids_filter].
  rewrite list_elem_of_fmap. intros (v & Hid & Hv).
  apply list_elem_of_filter in Hv as [Hne _]. congruence.
Qed.

Lemma dedupById_sublist l : dedupById l `sublist_of` l.
Proof.
  induction l as [|u l IH]; [done|].
  simpl. apply sublist_skip. etrans; [apply sublist_filter|done].
Qed.

(** An occurrence with no earlier occurrence of its [_id] is kept. *)
Lemma dedupById_first l1 u l2 :
  _id u ∉ (_id <$> l1) -> u ∈ dedupById (l1 ++ u :: l2).
Proof.
  induction l1 as [|v l1 IH]; simpl; [intros _; apply list_elem_of_here|].
  rewrite not_elem_of_cons. intros [Hne Hl1].
  apply list_elem_of_further, list_elem_of_filter. split; [done|]. by apply IH.
Qed.

Lemma filter_all l (P : IUser -> Prop) `{!forall v, Decision (P v)} :
  (forall v, P v) -> filter P l = l.
Proof.
  intros HP. induction l as [|u l IH]; [done|].
  by rewrite filter_cons_True, IH.
Qed.

Lemma ids_filter_notin l id (X : list string) :
  id ∈ (_id <$> filter (fun v => _id v ∉ X) l) <-> (id ∉ X) /\ id ∈ (_id <$> l).
Proof.
  rewrite !list_elem_of_fmap. split.
  - intros (v & -> & Hv). apply list_elem_of_filter in Hv as [Hx Hv]. eauto.
  - intros (Hx & v & -> & Hv). exists v. split; [done|].
    by apply list_elem_of_filter.
Qed.

Lemma dedupById_app l1 l2 :
  dedupById (l1 ++ l2) =
  dedupById l1 ++ filter (fun v => _id v ∉ (_id <$> l1)) (dedupById l2).
Proof.
  induction l1 as [|u l1 IH]; simpl.
  - symmetry. apply filter_all. intros v. apply not_elem_of_nil.
  - f_equal. rewrite IH, filter_app. f_equal.
    rewrite list_filter_filter. apply list_filter_iff.
    intros v. rewrite not_elem_of_cons. tauto.
Qed.

End Dedup.

(** ** Resolving the groups *)

Section Resolving.

Context {W C : Type}.
Variable this : BulkMessageService W C.

Implicit Types (s : Store) (l : list IUser) (e : Env W C).

Lemma storeOk_empty report0 :
  storeOk {| allRecipients := []; recipientIds := ∅; report := report0 |}.
Proof.
  intros id. simpl. rewrite elem_of_nil. split; [|done].
  apply not_elem_of_empty.
Qed.

Lemma fold_addRecipient l s :
  storeOk s ->
  storeOk (fold_left addRecipient l s) /\
  allRecipients (fold_left addRecipient l s) =
    allRecipients s ++
    filter (fun v => _id v ∉ (_id <$> allRecipients s)) (dedupById l) /\
  report (fold_left addRecipient l s) = report s.
Proof.
  revert s. induction l as [|u l IH]; intros s Hs.
  - simpl. by rewrite app_nil_r.
  - simpl. unfold addRecipient at 2 4 6. case_decide as Hin.
    + destruct (IH s Hs) as (Hok & Hall & Hrep). split; [done|split; [|done]].
      rewrite Hall. f_equal. apply Hs in Hin.
      rewrite filter_cons_False by (intros Hn; by apply Hn).
      rewrite list_filter_filter_l; [done|].
      intros v Hv Heq. apply Hv. by rewrite Heq.
    + set (s1 := {| allRecipients := allRecipients s ++ [u];
                    recipientIds := {[_id u]} ∪ recipientIds s;
                    report := report s |}).
      assert (storeOk s1) as Hs1.
      { intros id. unfold s1; simpl. rewrite fmap_app, elem_of_app, elem_of_union.
        rewrite (Hs id). simpl. rewrite list_elem_of_singleton, elem_of_singleton.
        tauto. }
      destruct (IH s1 Hs1) as (Hok & Hall & Hrep). split; [done|split; [|done]].
      rewrite Hall. unfold s1; simpl. rewrite <- app_assoc. f_equal.
      rewrite filter_cons_True by (intros Hn; apply Hin; by apply Hs).
      simpl. f_equal. rewrite list_filter_filter. apply list_filter_iff.
      intros v. rewrite fmap_app, elem_of_app. simpl.
      rewrite list_elem_of_singleton. tauto.
Qed.

Lemma users_cons_ok g l1 (ts : list GroupTask) :
  concat (groupUsers <$> mkGroupTask g (Ok l1) :: ts) =
  l1 ++ concat (groupUsers <$> ts).
Proof. reflexivity. Qed.

Lemma users_cons_throw g m (ts : list GroupTask) :
  concat (groupUsers <$> mkGroupTask g (Throw m) :: ts) =
  concat (groupUsers <$> ts).
Proof. reflexivity. Qed.

Lemma errors_cons_ok g l1 (ts : list GroupTask) :
  omap groupError (mkGroupTask g (Ok l1) :: ts) = omap groupError ts.
Proof. reflexivity. Qed.

Lemma errors_cons_throw g m (ts : list GroupTask) :
  omap groupError (mkGroupTask g (Throw m) :: ts) =
  {| e_recipientGroup := Some g; e_user := None; e_name := None;
     e_message := m |} :: omap groupError ts.
Proof. reflexivity. Qed.

Lemma fold_resume (tasks : list GroupTask) s :
  storeOk s ->
  storeOk (fold_left addRecipientsFromGroup_resume tasks s) /\
  allRecipients (fold_left addRecipientsFromGroup_resume tasks s) =
    allRecipients s ++
    filter (fun v => _id v ∉ (_id <$> allRecipients s))
           (dedupById (concat (groupUsers <$> tasks))) /\
  report (fold_left addRecipientsFromGroup_resume tasks s) =
    {| errors := errors (report s) ++ omap groupError tasks;
       numFailed := numFailed (report s) + length (omap groupError tasks);
       numRecipients := numRecipients (report s);
       recipients := recipients (report s) |}.
Proof.
  revert s. induction tasks as [|t ts IH]; intros s Hs.
  - simpl. rewrite !app_nil_r, Nat.add_0_r. by destruct (report s).
  - cbn [fold_left]. destruct t as [g [l1|m]].
    + change (addRecipientsFromGroup_resume s (mkGroupTask g (Ok l1)))
        with (fold_left addRecipient l1 s).
      rewrite users_cons_ok, errors_cons_ok.
      destruct (fold_addRecipient l1 s Hs) as (Hok1 & Hall1 & Hrep1).
      destruct (IH _ Hok1) as (Hok & Hall & Hrep).
      split; [done|]. split.
      * rewrite Hall, Hall1, dedupById_app, filter_app, <- app_assoc.
        do 2 f_equal. rewrite list_filter_filter. apply list_filter_iff.
        intros v. rewrite fmap_app, elem_of_app, ids_filter_notin, dedupById_ids.
        tauto.
      * by rewrite Hrep, Hrep1.
    + set (s1 := addRecipientsFromGroup_resume s (mkGroupTask g (Throw m))).
      assert (storeOk s1) as Hs1 by exact Hs.
      rewrite users_cons_throw, errors_cons_throw.
      destruct (IH _ Hs1) as (Hok & Hall & Hrep).
      split; [done|]. split; [done|].
      rewrite Hrep. unfold s1; simpl. rewrite <- app_assoc. f_equal. lia.
Qed.

Lemma settleOrder_Permutation {A} sched (l : list A) : settleOrder sched l ≡ₚ l.
Proof.
  revert l. induction sched as [|k sched IH]; intros l; [done|].
  simpl. destruct (l !! (k mod length l)) as [t|] eqn:Hl; [|done].
  rewrite IH. symmetry. by apply delete_Permutation.
Qed.

(** Every order of the tasks is the order of some schedule. *)
Lemma settleOrder_complete {A} (l l' : list A) :
  l ≡ₚ l' -> exists sched, settleOrder sched l = l'.
Proof.
  revert l. induction l' as [|x l' IH]; intros l Hp.
  - apply Permutation_nil_r in Hp as ->. by exists [].
  - assert (x ∈ l) as Hx by (rewrite Hp; apply list_elem_of_here).
    apply list_elem_of_lookup in Hx as [i Hi].
    destruct (IH (delete i l)) as [sched Hs].
    { apply (inj (x ::.)). rewrite <- Hp. symmetry. by apply delete_Permutation. }
    exists (i :: sched). simpl.
    rewrite Nat.mod_small by (by eapply lookup_lt_Some).
    by rewrite Hi, Hs.
Qed.

Lemma mapM_call_cons g gs e :
  mapM (addRecipientsFromGroup_call this) (g :: gs) e =
  let rw := IRecipientResolver.resolve (recipientResolver this) g (world e) in
  let e1 := {| world := snd rw; calls := calls e ++ [CallResolve g] |} in
  let r := mapM (addRecipientsFromGroup_call this) gs e1 in
  (mkGroupTask g (fst rw) :: fst r, snd r).
Proof.
  cbn [mapM]. unfold bind, addRecipientsFromGroup_call, bind, callResolve, logged, ret.
  destruct (IRecipientResolver.resolve (recipientResolver this) g (world e))
    as [r w]. cbn [fst snd].
  by destruct (mapM _ gs _).
Qed.

Lemma mapM_resolve groups e :
  g_group <$> resolutions this groups e = groups /\
  calls (snd (mapM (addRecipientsFromGroup_call this) groups e)) =
    calls e ++ (CallResolve <$> groups) /\
  world (snd (mapM (addRecipientsFromGroup_call this) groups e)) =
    world (snd (mapM (addRecipientsFromGroup_call this) groups (mkEnv (world e) []))) /\
  Forall (fun t => exists w,
            fst (IRecipientResolver.resolve (recipientResolver this) (g_group t) w)
            = g_settled t)
         (resolutions this groups e).
Proof.
  unfold resolutions. revert e. induction groups as [|g gs IH]; intros e.
  - simpl. by rewrite app_nil_r.
  - rewrite !mapM_call_cons. cbn zeta. cbn [fst snd world calls].
    set (rw := IRecipientResolver.resolve (recipientResolver this) g (world e)).
    set (e1 := {| world := snd rw; calls := calls e ++ [CallResolve g] |}).
    destruct (IH e1) as (Hg & Hc & Hw & Hf).
    rewrite fmap_cons, Hg, Hc. cbn [g_group calls e1].
    split; [done|]. split; [by rewrite <- app_assoc|]. split.
    + rewrite Hw. symmetry.
      destruct (IH {| world := snd rw; calls := [] ++ [CallResolve g] |})
        as (_ & _ & Hw' & _).
      rewrite Hw'. done.
    + apply Forall_cons. split; [|done]. by exists (world e).
Qed.

Lemma getRecipients_spec groups report0 sched e :
  let order := settleOrder sched (resolutions this groups e) in
  getRecipients this groups report0 sched e =
    ((dedupById (concat (groupUsers <$> order)),
      {| errors := errors report0 ++ omap groupError order;
         numFailed := numFailed report0 + length (omap groupError order);
         numRecipients := numRecipients report0;
         recipients := recipients report0 |}),
     snd (mapM (addRecipientsFromGroup_call this) groups e)).
Proof.
  intros order. unfold getRecipients, bind, ret.
  unfold order, resolutions.
  destruct (mapM (addRecipientsFromGroup_call this) groups e) as [tasks e1].
  simpl fst. simpl snd.
  set (s0 := {| allRecipients := []; recipientIds := ∅; report := report0 |}).
  assert (storeOk s0) as Hs0 by apply storeOk_empty.
  destruct (fold_resume (settleOrder sched tasks) s0 Hs0) as (_ & Hall & Hrep).
  rewrite Hall, Hrep. unfold s0; simpl. do 2 f_equal.
  apply filter_all. intros v. apply not_elem_of_nil.
Qed.

End Resolving.

(** ** The whole of [send] *)

Section Send.

Context {W C : Type}.
Variable this : BulkMessageService W C.

Implicit Types (e : Env W C) (groups : list string).

Lemma queue_fold_push {T} (l : list T) (q : BatchJobQueue) :
  queue (fold_left push l q) = queue q ++ l.
Proof.
  revert q. induction l as [|x l IH]; intros q; simpl.
  - by rewrite app_nil_r.
  - rewrite IH. simpl. by rewrite <- app_assoc.
Qed.

Lemma omap_cons {A B} (f : A -> option B) x l :
  omap f (x :: l) =
  match f x with Some y => y :: omap f l | None => omap f l end.
Proof. reflexivity. Qed.

Lemma fold_recordAttempt attempts report0 :
  fold_left recordAttempt attempts report0 =
  {| errors := errors report0 ++ omap attemptError attempts;
     numFailed := numFailed report0 + length (omap attemptError attempts);
     numRecipients := numRecipients report0 + length (omap attemptEntry attempts);
     recipients := recipients report0 ++ omap attemptEntry attempts |}.
Proof.
  revert report0. induction attempts as [|[u sent [[]|m]] l IH]; intros report0.
  - simpl. rewrite !app_nil_r, !Nat.add_0_r. by destruct report0.
  - cbn [fold_left]. rewrite IH. unfold recordAttempt; simpl.
    f_equal; [by rewrite <- Nat.add_assoc | by rewrite <- app_assoc].
  - cbn [fold_left]. rewrite IH. unfold recordAttempt; simpl.
    f_equal; [by rewrite <- app_assoc | by rewrite <- Nat.add_assoc].
Qed.

Lemma segments_step template (t : SendTask) (s : BulkMessageReport * Env W C) :
  match sendToRecipient_step this template t s with
  | (Some t', _) => segments t' < segments t
  | (None, _) => 0 < segments t
  end.
Proof.
  destruct s as [rep e].
  destruct t as [u | u [context|m] | u [message|m] | u message [[]|m]];
    unfold sendToRecipient_step, callCreateContext, callTemplate, callSendMessage, logged;
    simpl; try lia.
  - destruct (IMessageContextFactory.createContextFromUser _ _ _); simpl; lia.
  - destruct (IMessageTemplateResolver.resolve _ _ _ _); simpl; lia.
  - destruct (IMessageTransport.sendMessage _ _ _ _); simpl; lia.
Qed.

Lemma sendToRecipients_spec rs template report0 sched e :
  exists attempts,
    fst (sendToRecipients this rs template report0 sched e) =
      fold_left recordAttempt attempts report0 /\
    a_recipient <$> attempts ≡ₚ rs /\
    Forall (justified this template) attempts /\
    transportCalls (calls (snd (sendToRecipients this rs template report0 sched e)))
      ≡ₚ transportCalls (calls e) ++ omap attemptSent attempts /\
    resolveCalls (calls (snd (sendToRecipients this rs template report0 sched e)))
      = resolveCalls (calls e).
Proof.
  unfold sendToRecipients, run. cbn [queue signalEof].
  rewrite queue_fold_push. cbn [queue newQueue app].
  set (sched' := sched ++ repeat 0 (4 * length rs)).
  pose proof (runTasks_invariant (sendToRecipient_step this template)
                (sendInv this template (≡ₚ) rs report0 e)
                (sendInv_perm this template rs report0 e)
                (sendInv_step this template (≡ₚ) rs report0 e)
                sched' (AtStart <$> rs) (report0, e)
                (sendInv_init this template (≡ₚ) (fun l => reflexivity l)
                   rs report0 e e eq_refl eq_refl))
    as (attempts & Hrep & Hperm & Hj & _ & Hcalls & Hres).
  assert (fst (runTasks (sendToRecipient_step this template) sched'
                 (AtStart <$> rs) (report0, e)) = []) as Hdone.
  { apply (run_drained (sendToRecipient_step this template) segments
             (segments_step template) AtStart 4 (mkQueue rs true) sched (report0, e)).
    done. }
  rewrite Hdone in Hperm, Hcalls. simpl in Hperm, Hcalls.
  rewrite app_nil_r in Hperm, Hcalls.
  exists attempts. done.
Qed.

(** With the empty schedule the tasks run one after the other, in the
    order of the recipients. *)
Lemma sendToRecipients_in_order rs template report0 e :
  exists attempts,
    fst (sendToRecipients this rs template report0 [] e) =
      fold_left recordAttempt attempts report0 /\
    a_recipient <$> attempts = rs /\
    Forall (justified this template) attempts.
Proof.
  unfold sendToRecipients, run. cbn [queue signalEof].
  rewrite queue_fold_push. cbn [queue newQueue app].
  pose proof (runTasks_head_invariant (sendToRecipient_step this template)
                (sendInv this template eq rs report0 e)
                (4 * length rs) (AtStart <$> rs) (report0, e)
                (sendInv_step this template eq rs report0 e)
                (sendInv_init this template eq (fun l => eq_refl)
                   rs report0 e e eq_refl eq_refl))
    as (attempts & Hrep & Hperm & Hj & _ & _ & _).
  assert (fst (runTasks (sendToRecipient_step this template)
                 (repeat 0 (4 * length rs))
                 (AtStart <$> rs) (report0, e)) = []) as Hdone.
  { apply (run_drained (sendToRecipient_step this template) segments
             (segments_step template) AtStart 4 (mkQueue rs true) [] (report0, e)).
    done. }
  rewrite Hdone in Hperm. simpl in Hperm. rewrite app_nil_r in Hperm.
  exists attempts. done.
Qed.

(** A single task run on its own is [createMessageForUser] followed by the
    transport call, inside the [try]. *)
Lemma sendToRecipient_alone u template report0 e :
  sendToRecipients this [u] template report0 [] e =
  let '(r, e1) := createMessageForUser this u template e in
  match r with
  | Throw m => (recordFailure u m report0, e1)
  | Ok message =>
      let '(r2, e2) := callSendMessage this u message e1 in
      match r2 with
      | Ok _ => (recordSent u report0, e2)
      | Throw m => (recordFailure u m report0, e2)
      end
  end.
Proof.
  unfold sendToRecipients, run, createMessageForUser, bind, ret.
  change ([] ++ repeat 0 (4 * length (queue (signalEof (fold_left push [u] newQueue)))))
    with [0; 0; 0; 0].
  change (AtStart (C:=C) <$> queue (signalEof (fold_left push [u] newQueue)))
    with [AtStart (C:=C) u].
  rewrite runTasks_head. unfold sendToRecipient_step at 1.
  destruct (callCreateContext this u e) as [[context|m] e1].
  - rewrite runTasks_head. unfold sendToRecipient_step at 1.
    destruct (callTemplate this context template e1) as [[message|m] e2].
    + rewrite runTasks_head. unfold sendToRecipient_step at 1.
      destruct (callSendMessage this u message e2) as [[[]|m] e3];
        by rewrite runTasks_head.
    + by rewrite runTasks_head.
  - by rewrite runTasks_head.
Qed.

Lemma calls_of_resolves groups :
  resolveCalls (C:=C) (CallResolve <$> groups) = groups /\
  transportCalls (C:=C) (CallResolve <$> groups) = [].
Proof.
  induction groups as [|g gs [IH1 IH2]]; [done|].
  rewrite fmap_cons. unfold resolveCalls, transportCalls in *.
  rewrite !omap_cons, IH1, IH2. done.
Qed.

Lemma send_invalid groups template sched1 sched2 e :
  List.filter
    (fun g => negb (IRecipientResolver.canResolve (recipientResolver this) g))
    groups <> [] ->
  send this groups template sched1 sched2 e =
  (Throw (invalidRecipients
            (List.filter
               (fun g => negb (IRecipientResolver.canResolve (recipientResolver this) g))
               groups)), e).
Proof.
  intros Hne. unfold send.
  destruct (List.filter _ groups) as [|g l]; [done|]. reflexivity.
Qed.

Lemma send_valid_eq groups template sched1 sched2 e :
  List.filter
    (fun g => negb (IRecipientResolver.canResolve (recipientResolver this) g))
    groups = [] ->
  let order := settleOrder sched1 (resolutions this groups e) in
  let r := sendToRecipients this (dedupById (concat (groupUsers <$> order)))
             template
             {| errors := omap groupError order;
                numFailed := length (omap groupError order);
                numRecipients := 0;
                recipients := [] |}
             sched2 (snd (mapM (addRecipientsFromGroup_call this) groups e)) in
  send this groups template sched1 sched2 e = (Ok (fst r), snd r).
Proof.
  intros Hvalid order r. unfold send. rewrite Hvalid. cbn [length].
  unfold bind at 1. rewrite getRecipients_spec. fold order.
  cbn [errors numFailed numRecipients recipients app Nat.add].
  unfold bind, ret. fold r. by destruct r.
Qed.

Lemma send_valid groups template sched1 sched2 e :
  List.filter
    (fun g => negb (IRecipientResolver.canResolve (recipientResolver this) g))
    groups = [] ->
  let order := settleOrder sched1 (resolutions this groups e) in
  exists attempts,
    fst (send this groups template sched1 sched2 e) =
      Ok {| errors := omap groupError order ++ omap attemptError attempts;
            numFailed := length (omap groupError order) +
                         length (omap attemptError attempts);
            numRecipients := length (omap attemptEntry attempts);
            recipients := omap attemptEntry attempts |} /\
    a_recipient <$> attempts ≡ₚ dedupById (concat (groupUsers <$> order)) /\
    Forall (justified this template) attempts /\
    transportCalls (calls (snd (send this groups template sched1 sched2 e)))
      ≡ₚ transportCalls (calls e) ++ omap attemptSent attempts /\
    resolveCalls (calls (snd (send this groups template sched1 sched2 e)))
      = resolveCalls (calls e) ++ groups.
Proof.
  intros Hvalid order. rewrite (send_valid_eq _ _ _ _ _ Hvalid). fold order.
  set (rs := dedupById (concat (groupUsers <$> order))).
  set (report1 := mkReport _ _ _ _).
  set (e1 := snd (mapM (addRecipientsFromGroup_call this) groups e)).
  cbn zeta. cbn [fst snd].
  destruct (sendToRecipients_spec rs template report1 sched2 e1)
    as (attempts & Hrep & Hperm & Hj & Hcalls & Hres).
  exists attempts.
  destruct (mapM_resolve this groups e) as (_ & Hc & _ & _). fold e1 in Hc.
  destruct (calls_of_resolves groups) as [Hr Ht].
  split; [|split; [done|split; [done|split]]].
  - rewrite Hrep, fold_recordAttempt. unfold report1. simpl. done.
  - rewrite Hcalls, Hc. unfold transportCalls at 1. rewrite omap_app.
    fold (transportCalls (calls e)).
    fold (transportCalls (C:=C) (CallResolve <$> groups)).
    by rewrite Ht, app_nil_r.
  - rewrite Hres, Hc. unfold resolveCalls at 1. rewrite omap_app.
    fold (resolveCalls (calls e)).
    fold (resolveCalls (C:=C) (CallResolve <$> groups)).
    by rewrite Hr.
Qed.

Lemma filter_invalid_nil groups :
  List.filter
    (fun g => negb (IRecipientResolver.canResolve (recipientResolver this) g))
    groups = [] <->
  (forall g, g ∈ groups ->
     IRecipientResolver.canResolve (recipientResolver this) g = true).
Proof.
  induction groups as [|g gs IH]; simpl.
  - split; [|done]. intros _ g Hg. by apply elem_of_nil in Hg.
  - destruct (IRecipientResolver.canResolve (recipientResolver this) g) eqn:E;
      simpl.
    + rewrite IH. split.
      * intros Hgs g' Hg'. apply elem_of_cons in Hg' as [->|Hg']; eauto.
      * intros Hgs g' Hg'. apply Hgs. by apply list_elem_of_further.
    + split; [done|]. intros Hgs.
      specialize (Hgs g (list_elem_of_here _ _)). congruence.
Qed.

End Send.

(** ** Counting *)

Section Counting.

Context {A : Type} `{EqDecision A}.
Implicit Types (x y : A) (l k : list A).

Lemma occurrences_cons x y l :
  occurrences x (y :: l) =
  (if decide (y = x) then 1 else 0) + occurrences x l.
Proof. unfold occurrences. rewrite filter_cons. by case_decide. Qed.

Lemma occurrences_app x l k :
  occurrences x (l ++ k) = occurrences x l + occurrences x k.
Proof. unfold occurrences. by rewrite filter_app, length_app. Qed.

Lemma occurrences_Permutation x l k :
  l ≡ₚ k -> occurrences x l = occurrences x k.
Proof. intros Hp. unfold occurrences. by rewrite Hp. Qed.

Lemma occurrences_not_elem x l : x ∉ l -> occurrences x l = 0.
Proof.
  induction l as [|y l IH]; [done|].
  rewrite not_elem_of_cons, occurrences_cons. intros [Hne Hl].
  rewrite decide_False by done. by rewrite IH.
Qed.

Lemma occurrences_NoDup x l : NoDup l -> x ∈ l -> occurrences x l = 1.
Proof.
  induction l as [|y l IH]; intros Hnd Hx; [by apply elem_of_nil in Hx|].
  apply NoDup_cons in Hnd as [Hy Hnd]. rewrite occurrences_cons.
  destruct (decide (y = x)) as [->|Hne].
  - by rewrite occurrences_not_elem.
  - apply elem_of_cons in Hx as [->|Hx]; [done|]. by rewrite IH.
Qed.

Lemma occurrences_elem x l : 0 < occurrences x l -> x ∈ l.
Proof.
  intros Hpos. destruct (decide (x ∈ l)) as [|Hn]; [done|].
  rewrite occurrences_not_elem in Hpos by done. lia.
Qed.

End Counting.

Lemma concat_Permutation {A} (l k : list (list A)) :
  l ≡ₚ k -> concat l ≡ₚ concat k.
Proof.
  induction 1 as [|x l k _ IH|x y l|l k m _ IH1 _ IH2]; simpl.
  - done.
  - by rewrite IH.
  - rewrite !app_assoc. f_equiv. apply Permutation_app_comm.
  - by rewrite IH1.
Qed.

(** ** What the report says of the attempts *)

Section Accounting.

Implicit Types (attempts : list Attempt) (tasks : list GroupTask) (id g : string).

Lemma attempts_split attempts :
  length (omap attemptEntry attempts) + length (omap attemptError attempts)
  = length attempts.
Proof.
  induction attempts as [|[u sent [[]|m]] l IH]; [done| |];
    rewrite !omap_cons; unfold attemptEntry at 1, attemptError at 1;
    cbn [a_result length]; lia.
Qed.

Lemma attempts_by_id attempts id :
  occurrences id (r_user <$> omap attemptEntry attempts) +
  occurrences (Some id) (e_user <$> omap attemptError attempts)
  = occurrences id (_id <$> (a_recipient <$> attempts)).
Proof.
  induction attempts as [|[u sent [[]|m]] l IH]; [done| |];
    rewrite !omap_cons; unfold attemptEntry at 1, attemptError at 1;
    cbn [a_result a_recipient]; rewrite !fmap_cons, !occurrences_cons;
    cbn [r_user e_user a_recipient].
  - lia.
  - destruct (decide (_id u = id)) as [->|Hne].
    + rewrite decide_True by done. lia.
    + rewrite decide_False by congruence. lia.
Qed.

Lemma attempt_errors_no_group attempts g :
  occurrences (Some g) (e_recipientGroup <$> omap attemptError attempts) = 0.
Proof.
  apply occurrences_not_elem. rewrite list_elem_of_fmap.
  intros (x & Hx & Hin). apply list_elem_of_omap in Hin as (a & _ & Ha).
  unfold attemptError in Ha. destruct (a_result a); simplify_eq/=.
Qed.

Lemma group_errors_no_user tasks id :
  occurrences (Some id) (e_user <$> omap groupError tasks) = 0.
Proof.
  apply occurrences_not_elem. rewrite list_elem_of_fmap.
  intros (x & Hx & Hin). apply list_elem_of_omap in Hin as (t & _ & Ht).
  unfold groupError in Ht. destruct (g_settled t); simplify_eq/=.
Qed.

Lemma group_errors_by_group tasks g :
  occurrences (Some g) (e_recipientGroup <$> omap groupError tasks) =
  length (filter (fun t => g_group t = g /\ isOk (g_settled t) = false) tasks).
Proof.
  induction tasks as [|[g' [l|m]] ts IH]; [done| |].
  - rewrite omap_cons. unfold groupError at 1. cbn [g_settled].
    rewrite filter_cons_False by (simpl; intros [_ ?]; done). done.
  - rewrite omap_cons. unfold groupError at 1. cbn [g_settled g_group].
    rewrite fmap_cons, occurrences_cons, filter_cons. cbn [e_recipientGroup].
    destruct (decide (g' = g)) as [->|Hne].
    + rewrite decide_True by done. rewrite decide_True by done.
      simpl. by rewrite IH.
    + rewrite decide_False by congruence.
      rewrite decide_False by (simpl; intros [? _]; done). done.
Qed.

Lemma attempts_sent_le attempts id :
  occurrences id ((fun c => _id (fst c)) <$> omap attemptSent attempts)
  <= occurrences id (_id <$> (a_recipient <$> attempts)).
Proof.
  induction attempts as [|[u [message|] r] l IH]; [done| |];
    rewrite !omap_cons; unfold attemptSent at 1; cbn [a_sent a_recipient fmap option_fmap option_map];
    rewrite !fmap_cons, !occurrences_cons; cbn [fst a_recipient]; lia.
Qed.

End Accounting.

(** ** Attempts on users that can or cannot be delivered to *)

Section Delivery.

Context {W C : Type}.
Variable this : BulkMessageService W C.
Variable template : string.

Implicit Types (a : Attempt) (attempts : list Attempt) (u : IUser).

Lemma attempt_reaches_transport a :
  justified this template a ->
  contextSucceeds this (a_recipient a) ->
  renderingSucceeds this template (a_recipient a) ->
  exists message w,
    a_sent a = Some message /\
    fst (IMessageTransport.sendMessage (transport this) (a_recipient a) message w)
    = a_result a.
Proof.
  destruct a as [u [message|] r]; unfold justified; cbn [a_sent a_recipient a_result].
  - intros [_ [w Hw]] _ _. eauto.
  - intros (m & -> & [[w Hw]|(context & w & [w0 Hc] & Hw)]) Hctx Hrender.
    + specialize (Hctx w). rewrite Hw in Hctx. discriminate.
    + specialize (Hrender context w0 w Hc). rewrite Hw in Hrender. discriminate.
Qed.

Lemma attempt_delivered a :
  justified this template a ->
  deliverable this template (a_recipient a) ->
  is_Some (a_sent a) /\ a_result a = Ok tt.
Proof.
  intros Hj (Hctx & Hrender & Htr).
  destruct (attempt_reaches_transport a Hj Hctx Hrender) as (message & w & Hs & Hr).
  split; [by rewrite Hs|].
  specialize (Htr message w). rewrite Hr in Htr.
  by destruct (a_result a) as [[]|].
Qed.

Lemma attempt_transport_failed a :
  justified this template a ->
  contextSucceeds this (a_recipient a) ->
  renderingSucceeds this template (a_recipient a) ->
  transportFails this (a_recipient a) ->
  exists message m w,
    a_sent a = Some message /\ a_result a = Throw m /\
    fst (IMessageTransport.sendMessage (transport this) (a_recipient a) message w)
    = Throw m.
Proof.
  intros Hj Hctx Hrender Htr.
  destruct (attempt_reaches_transport a Hj Hctx Hrender) as (message & w & Hs & Hr).
  specialize (Htr message w). rewrite Hr in Htr.
  destruct (a_result a) as [[]|m] eqn:Hres; [discriminate|].
  exists message, m, w. done.
Qed.

Lemma attempts_all_delivered attempts :
  Forall (fun a => a_result a = Ok tt) attempts ->
  omap attemptError attempts = [] /\
  omap attemptEntry attempts = entryOf <$> (a_recipient <$> attempts).
Proof.
  induction 1 as [|[u sent r] l Hr _ [IHe IHr]]; [done|].
  simpl in Hr. subst r. rewrite !omap_cons.
  unfold attemptError at 1, attemptEntry at 1. cbn [a_result a_recipient].
  rewrite IHe, IHr. done.
Qed.

Lemma attempts_entry_when attempts id :
  (forall a, a ∈ attempts -> _id (a_recipient a) = id -> a_result a = Ok tt) ->
  occurrences id (r_user <$> omap attemptEntry attempts)
  = occurrences id (_id <$> (a_recipient <$> attempts)).
Proof.
  induction attempts as [|[u sent r] l IH]; intros Hall; [done|].
  rewrite omap_cons, !fmap_cons, occurrences_cons. cbn [a_recipient].
  assert (occurrences id (r_user <$> omap attemptEntry l) =
          occurrences id (_id <$> (a_recipient <$> l))) as IH'.
  { apply IH. intros a Ha. apply Hall. by apply list_elem_of_further. }
  destruct (decide (_id u = id)) as [Hid|Hne].
  - pose proof (Hall _ (list_elem_of_here _ _) Hid) as Hr.
    simpl in Hr. subst r.
    unfold attemptEntry at 1. cbn [a_result a_recipient].
    rewrite fmap_cons, occurrences_cons. cbn [r_user].
    rewrite decide_True by done. by rewrite IH'.
  - unfold attemptEntry at 1. cbn [a_result a_recipient].
    destruct r as [[]|m]; [|by rewrite IH'].
    rewrite fmap_cons, occurrences_cons. cbn [r_user].
    rewrite decide_False by done. by rewrite IH'.
Qed.

Lemma attempts_sent_when attempts id :
  (forall a, a ∈ attempts -> _id (a_recipient a) = id -> is_Some (a_sent a)) ->
  occurrences id ((fun c => _id (fst c)) <$> omap attemptSent attempts)
  = occurrences id (_id <$> (a_recipient <$> attempts)).
Proof.
  induction attempts as [|[u sent r] l IH]; intros Hall; [done|].
  rewrite omap_cons, !fmap_cons, occurrences_cons. cbn [a_recipient].
  assert (occurrences id ((fun c => _id (fst c)) <$> omap attemptSent l) =
          occurrences id (_id <$> (a_recipient <$> l))) as IH'.
  { apply IH. intros a Ha. apply Hall. by apply list_elem_of_further. }
  unfold attemptSent at 1. cbn [a_sent a_recipient].
  destruct (decide (_id u = id)) as [Hid|Hne].
  - destruct (Hall _ (list_elem_of_here _ _) Hid) as [message Hm].
    simpl in Hm. subst sent. cbn [fmap option_fmap option_map].
    rewrite fmap_cons, occurrences_cons. cbn [fst].
    rewrite decide_True by done. by rewrite IH'.
  - destruct sent as [message|]; cbn [fmap option_fmap option_map]; [|by rewrite IH'].
    rewrite fmap_cons, occurrences_cons. cbn [fst].
    rewrite decide_False by done. by rewrite IH'.
Qed.

Lemma attempts_one_of attempts (bad : IUser) :
  NoDup (_id <$> (a_recipient <$> attempts)) ->
  bad ∈ (a_recipient <$> attempts) ->
  exists l1 a l2,
    attempts = l1 ++ a :: l2 /\ a_recipient a = bad /\
    Forall (fun x => _id (a_recipient x) <> _id bad) (l1 ++ l2).
Proof.
  intros Hnd Hbad. apply list_elem_of_fmap in Hbad as (a & -> & Ha).
  apply list_elem_of_split in Ha as (l1 & l2 & ->).
  exists l1, a, l2. split; [done|]. split; [done|].
  rewrite !fmap_app, !fmap_cons in Hnd.
  apply NoDup_app in Hnd as (_ & Hl1 & Hnd).
  apply NoDup_cons in Hnd as [Hl2 _].
  apply Forall_app. split; apply Forall_forall; intros x Hx Heq.
  - apply (Hl1 (_id (a_recipient x))).
    + by apply list_elem_of_fmap_2, list_elem_of_fmap_2.
    + rewrite Heq. apply list_elem_of_here.
  - apply Hl2. rewrite <- Heq.
    by apply list_elem_of_fmap_2, list_elem_of_fmap_2.
Qed.

Lemma filter_Forall_id {A} (P : A -> Prop) `{!forall x, Decision (P x)} (l : list A) :
  Forall P l -> filter P l = l.
Proof.
  induction 1 as [|x l Hx _ IH]; [done|].
  by rewrite filter_cons_True, IH.
Qed.

End Delivery.

(** ** From a returned report back to the run *)

Section Outcome.

Context {W C : Type}.
Variable this : BulkMessageService W C.

Implicit Types (e : Env W C) (groups : list string) (tasks : list GroupTask).

Lemma send_ok_valid groups template sched1 sched2 e report e' :
  send this groups template sched1 sched2 e = (Ok report, e') ->
  List.filter
    (fun g => negb (IRecipientResolver.canResolve (recipientResolver this) g))
    groups = [].
Proof.
  intros Hsend.
  destruct (List.filter _ groups) as [|g l] eqn:Hf; [done|].
  rewrite send_invalid in Hsend by (rewrite Hf; done). discriminate.
Qed.

Lemma merged_ids tasks (order : list GroupTask) :
  order ≡ₚ tasks ->
  _id <$> dedupById (concat (groupUsers <$> order)) ≡ₚ
  remove_dups (_id <$> concat (groupUsers <$> tasks)).
Proof.
  intros Hp. apply NoDup_Permutation.
  - apply dedupById_NoDup.
  - apply NoDup_remove_dups.
  - intros id. rewrite dedupById_ids, elem_of_remove_dups.
    assert (concat (groupUsers <$> order) ≡ₚ concat (groupUsers <$> tasks)) as Hc.
    { apply concat_Permutation. by rewrite Hp. }
    by rewrite Hc.
Qed.

Lemma group_errors_length tasks :
  length (omap groupError tasks) =
  length (filter (fun t => isOk (g_settled t) = false) tasks).
Proof.
  induction tasks as [|[g [l|m]] ts IH]; [done| |]; rewrite omap_cons;
    unfold groupError at 1; cbn [g_settled].
  - by rewrite filter_cons_False by done.
  - rewrite filter_cons_True by done. simpl. by rewrite IH.
Qed.

Lemma no_group_errors tasks :
  (forall t, t ∈ tasks -> isOk (g_settled t) = true) ->
  omap groupError tasks = [].
Proof.
  induction tasks as [|[g [l|m]] ts IH]; intros Hall; [done| |].
  - rewrite omap_cons. unfold groupError at 1. cbn [g_settled].
    apply IH. intros t Ht. apply Hall. by apply list_elem_of_further.
  - specialize (Hall _ (list_elem_of_here _ _)). discriminate.
Qed.

End Outcome.

(** ** Each resolved user is attempted once *)

Section Once.

Context {W C : Type}.
Variable this : BulkMessageService W C.

Lemma attempted_once groups template sched1 sched2 (e : Env W C) id :
  List.filter
    (fun g => negb (IRecipientResolver.canResolve (recipientResolver this) g))
    groups = [] ->
  let tasks := resolutions this groups e in
  let merged := dedupById (concat (groupUsers <$> settleOrder sched1 tasks)) in
  id ∈ (_id <$> concat (groupUsers <$> tasks)) ->
  occurrences id (_id <$> merged) = 1 /\
  exists report e',
    send this groups template sched1 sched2 e = (Ok report, e') /\
    numRecipients report = length (recipients report) /\
    occurrences id (r_user <$> recipients report) +
    occurrences (Some id) (e_user <$> errors report) = 1 /\
    sentTo id (calls e') <= sentTo id (calls e) + 1 /\
    ((forall u, u ∈ merged -> _id u = id -> deliverable this template u) ->
     sentTo id (calls e') = sentTo id (calls e) + 1 /\
     occurrences id (r_user <$> recipients report) = 1).
Proof.
  intros Hvalid tasks merged Hid.
  destruct (send_valid this groups template sched1 sched2 e Hvalid)
    as (attempts & Hrep & Hperm & Hj & Hcalls & _).
  fold tasks in Hrep, Hperm. fold merged in Hperm.
  set (order := settleOrder sched1 tasks) in *.
  assert (order ≡ₚ tasks) as Horder by apply settleOrder_Permutation.
  assert (occurrences id (_id <$> merged) = 1) as Hone.
  { apply occurrences_NoDup; [apply dedupById_NoDup|].
    apply dedupById_ids.
    assert (concat (groupUsers <$> order) ≡ₚ concat (groupUsers <$> tasks)) as Hc
      by (apply concat_Permutation; by rewrite Horder).
    by rewrite Hc. }
  assert (occurrences id (_id <$> (a_recipient <$> attempts)) = 1) as Hatt.
  { rewrite <- Hone. apply occurrences_Permutation. by rewrite Hperm. }
  split; [exact Hone|].
  destruct (send this groups template sched1 sched2 e) as [r e'].
  cbn [fst snd] in Hrep, Hcalls. subst r.
  eexists _, e'. split; [reflexivity|].
  cbn [numRecipients recipients errors].
  assert (sentTo id (calls e') =
          sentTo id (calls e) +
          occurrences id ((fun c => _id (fst c)) <$> omap attemptSent attempts))
    as Hsent.
  { unfold sentTo. rewrite <- occurrences_app, <- fmap_app.
    apply occurrences_Permutation. by rewrite Hcalls. }
  split; [done|]. split; [|split].
  - rewrite fmap_app, occurrences_app, group_errors_no_user, Nat.add_0_l.
    by rewrite attempts_by_id.
  - rewrite Hsent. pose proof (attempts_sent_le attempts id). lia.
  - intros Hdel.
    assert (forall a, a ∈ attempts -> _id (a_recipient a) = id ->
              is_Some (a_sent a) /\ a_result a = Ok tt) as Hgood.
    { intros a Ha Hida. apply (attempt_delivered this template).
      - by eapply (proj1 (Forall_forall _ _) Hj).
      - apply Hdel; [|done]. rewrite <- Hperm. by apply list_elem_of_fmap_2. }
    split.
    + rewrite Hsent, attempts_sent_when, Hatt; [done|].
      intros a Ha Hida. by apply Hgood.
    + rewrite attempts_entry_when, Hatt; [done|].
      intros a Ha Hida. by apply Hgood.
Qed.

Lemma getRecipients_merged groups report0 sched (e : Env W C) :
  fst (fst (getRecipients this groups report0 sched e)) =
  dedupById (concat (groupUsers <$> settleOrder sched (resolutions this groups e))).
Proof. by rewrite getRecipients_spec. Qed.

End Once.

(** ** Each recipient's pass is started once *)

Section Starts.

Context {W C : Type}.
Variable this : BulkMessageService W C.

Implicit Types (e : Env W C) (groups : list string).

Lemma contextCalls_snoc (l : list (Call C)) c :
  contextCalls (l ++ [c]) =
  contextCalls l ++ match c with CallCreateContext u => [u] | _ => [] end.
Proof. unfold contextCalls. rewrite omap_app. by destruct c. Qed.

Lemma notStarted_all (rs : list IUser) :
  omap (notStarted (C:=C)) (AtStart <$> rs) = rs.
Proof.
  induction rs as [|u l IH]; [done|].
  rewrite fmap_cons, omap_cons. cbn [notStarted]. by rewrite IH.
Qed.

Lemma sendToRecipients_contexts rs template report0 sched e :
  contextCalls (calls (snd (sendToRecipients this rs template report0 sched e)))
  ≡ₚ contextCalls (calls e) ++ rs.
Proof.
  unfold sendToRecipients, run. cbn [queue signalEof].
  rewrite queue_fold_push. cbn [queue newQueue app].
  set (sched' := sched ++ repeat 0 (4 * length rs)).
  set (I := fun (p : list (SendTask (C:=C))) (s : BulkMessageReport * Env W C) =>
              contextCalls (calls (snd s)) ++ omap notStarted p
              ≡ₚ contextCalls (calls e) ++ rs).
  assert (I (fst (runTasks (sendToRecipient_step this template) sched'
                    (AtStart <$> rs) (report0, e)))
            (snd (runTasks (sendToRecipient_step this template) sched'
                    (AtStart <$> rs) (report0, e)))) as Hinv.
  { apply (runTasks_invariant (sendToRecipient_step this template) I).
    - intros p p' s Hp HI. unfold I in *. by rewrite <- Hp.
    - intros t rest0 [rep e1] HI. unfold I in *. cbn [snd] in HI.
      rewrite omap_cons in HI.
      destruct t as [u | u [context|m] | u [message|m] | u message [[]|m]];
        unfold sendToRecipient_step, callCreateContext, callTemplate,
          callSendMessage, logged; cbn [notStarted] in HI; try exact HI.
      + destruct (IMessageContextFactory.createContextFromUser
                    (contextFactory this) u (world e1)).
        cbn [snd calls]. rewrite contextCalls_snoc, omap_cons. cbn [notStarted].
        rewrite <- HI. by rewrite <- app_assoc.
      + destruct (IMessageTemplateResolver.resolve
                    (templateResolver this) context template (world e1)).
        cbn [snd calls]. rewrite contextCalls_snoc, omap_cons. cbn [notStarted].
        rewrite <- HI. by rewrite app_nil_r.
      + destruct (IMessageTransport.sendMessage
                    (transport this) u message (world e1)).
        cbn [snd calls]. rewrite contextCalls_snoc, omap_cons. cbn [notStarted].
        rewrite <- HI. by rewrite app_nil_r.
    - unfold I. cbn [snd]. by rewrite notStarted_all. }
  assert (fst (runTasks (sendToRecipient_step this template) sched'
                 (AtStart <$> rs) (report0, e)) = []) as Hdone.
  { apply (run_drained (sendToRecipient_step this template) segments
             (segments_step this template) AtStart 4 (mkQueue rs true) sched
             (report0, e)).
    done. }
  unfold I in Hinv. rewrite Hdone in Hinv. cbn [omap list_omap] in Hinv.
  by rewrite app_nil_r in Hinv.
Qed.

Lemma contextCalls_of_resolves groups :
  contextCalls (C:=C) (CallResolve <$> groups) = [].
Proof.
  induction groups as [|g gs IH]; [done|].
  rewrite fmap_cons. unfold contextCalls in *. by rewrite omap_cons.
Qed.

Lemma send_contexts groups template sched1 sched2 e :
  List.filter
    (fun g => negb (IRecipientResolver.canResolve (recipientResolver this) g))
    groups = [] ->
  contextCalls (calls (snd (send this groups template sched1 sched2 e))) ≡ₚ
  contextCalls (calls e) ++
  dedupById (concat (groupUsers <$> settleOrder sched1 (resolutions this groups e))).
Proof.
  intros Hvalid. rewrite (send_valid_eq this _ _ _ _ _ Hvalid). cbn zeta. cbn [snd].
  rewrite sendToRecipients_contexts.
  destruct (mapM_resolve this groups e) as (_ & Hc & _ & _).
  rewrite Hc. unfold contextCalls at 1. rewrite omap_app.
  fold (contextCalls (calls e)). fold (contextCalls (C:=C) (CallResolve <$> groups)).
  by rewrite contextCalls_of_resolves, app_nil_r.
Qed.

(** For an [_id] among the resolved users: the pass of [sendToRecipient] on
    it is started once, and either the transport is called once for it, or
    it is not called and the failure is recorded. *)
Lemma sent_or_recorded groups template sched1 sched2 e id :
  List.filter
    (fun g => negb (IRecipientResolver.canResolve (recipientResolver this) g))
    groups = [] ->
  id ∈ (_id <$> concat (groupUsers <$> resolutions this groups e)) ->
  exists report,
    fst (send this groups template sched1 sched2 e) = Ok report /\
    startedFor id (calls (snd (send this groups template sched1 sched2 e))) =
      startedFor id (calls e) + 1 /\
    (sentTo id (calls (snd (send this groups template sched1 sched2 e))) =
       sentTo id (calls e) + 1 \/
     (sentTo id (calls (snd (send this groups template sched1 sched2 e))) =
        sentTo id (calls e) /\
      occurrences id (r_user <$> recipients report) = 0 /\
      occurrences (Some id) (e_user <$> errors report) = 1)).
Proof.
  intros Hvalid Hid.
  pose proof (send_contexts groups template sched1 sched2 e Hvalid) as Hctx.
  destruct (send_valid this groups template sched1 sched2 e Hvalid)
    as (attempts & Hrep & Hperm & Hj & Hcalls & _).
  set (tasks := resolutions this groups e) in *.
  set (order := settleOrder sched1 tasks) in *.
  set (merged := dedupById (concat (groupUsers <$> order))) in *.
  assert (order ≡ₚ tasks) as Horder by apply settleOrder_Permutation.
  assert (NoDup (_id <$> merged)) as Hnd by apply dedupById_NoDup.
  assert (id ∈ (_id <$> merged)) as Hin.
  { apply dedupById_ids.
    assert (concat (groupUsers <$> order) ≡ₚ concat (groupUsers <$> tasks)) as Hc
      by (apply concat_Permutation; by rewrite Horder).
    by rewrite Hc. }
  eexists. split; [exact Hrep|]. split.
  - unfold startedFor.
    assert (_id <$> contextCalls
              (calls (snd (send this groups template sched1 sched2 e)))
            ≡ₚ _id <$> (contextCalls (calls e) ++ merged)) as Hids
      by (by rewrite Hctx).
    rewrite (occurrences_Permutation _ _ _ Hids), fmap_app, occurrences_app.
    f_equal. by apply occurrences_NoDup.
  - apply list_elem_of_fmap in Hin as (u & -> & Hu).
    destruct (attempts_one_of attempts u) as (l1 & a & l2 & -> & Ha & Hothers).
    { by rewrite Hperm. }
    { by rewrite Hperm. }
    assert (sentTo (_id u) (calls (snd (send this groups template sched1 sched2 e))) =
            sentTo (_id u) (calls e) +
            occurrences (_id u)
              ((fun c => _id (fst c)) <$> omap attemptSent (l1 ++ a :: l2)))
      as Hsent.
    { unfold sentTo. rewrite <- occurrences_app, <- fmap_app.
      apply occurrences_Permutation. by rewrite Hcalls. }
    assert (forall l, Forall (fun x => _id (a_recipient x) <> _id u) l ->
              occurrences (_id u) (_id <$> (a_recipient <$> l)) = 0) as Hzero.
    { intros l Hl. apply occurrences_not_elem. rewrite <- list_fmap_compose.
      rewrite list_elem_of_fmap. intros (x & Hx & Hxin).
      rewrite Forall_forall in Hl. by apply (Hl x Hxin). }
    apply Forall_app in Hothers as [Ho1 Ho2].
    assert (occurrences (_id u) ((fun c => _id (fst c)) <$> omap attemptSent l1) = 0)
      as Hs1 by (pose proof (attempts_sent_le l1 (_id u)); rewrite Hzero in *; [lia|done]).
    assert (occurrences (_id u) ((fun c => _id (fst c)) <$> omap attemptSent l2) = 0)
      as Hs2 by (pose proof (attempts_sent_le l2 (_id u)); rewrite Hzero in *; [lia|done]).
    rewrite omap_app, omap_cons, fmap_app, occurrences_app, Hs1 in Hsent.
    rewrite Forall_forall in Hj.
    assert (justified this template a) as Hja
      by (apply Hj, elem_of_app; right; apply list_elem_of_here).
    unfold attemptSent at 1 in Hsent. unfold justified in Hja.
    destruct (a_sent a) as [message|].
    + left. cbn [fmap option_fmap option_map] in Hsent.
      rewrite fmap_cons, occurrences_cons, Hs2 in Hsent. cbn [fst] in Hsent.
      rewrite Ha, decide_True in Hsent by done. lia.
    + right. cbn [fmap option_fmap option_map] in Hsent. rewrite Hs2 in Hsent.
      split; [lia|]. destruct Hja as (m & Hm & _).
      cbn [recipients errors].
      assert (occurrences (_id u) (r_user <$> omap attemptEntry (l1 ++ a :: l2)) = 0)
        as Hnone.
      { apply occurrences_not_elem. rewrite list_elem_of_fmap.
        intros (x & Hx & Hxin). apply list_elem_of_omap in Hxin as (b & Hb & Hbx).
        unfold attemptEntry in Hbx.
        destruct (a_result b) as [[]|] eqn:Hrb; simplify_eq/=.
        apply elem_of_app in Hb as [Hb|Hb].
        - rewrite Forall_forall in Ho1. by apply (Ho1 b Hb).
        - apply elem_of_cons in Hb as [->|Hb]; [congruence|].
          rewrite Forall_forall in Ho2. by apply (Ho2 b Hb). }
      split; [exact Hnone|].
      rewrite fmap_app, occurrences_app, group_errors_no_user, Nat.add_0_l.
      pose proof (attempts_by_id (l1 ++ a :: l2) (_id u)) as Htotal.
      rewrite Hnone, Nat.add_0_l in Htotal. rewrite Htotal.
      apply occurrences_NoDup; [by rewrite Hperm|].
      rewrite <- list_fmap_compose. apply list_elem_of_fmap.
      exists a. split; [by rewrite <- Ha|].
      apply elem_of_app. right. apply list_elem_of_here.
Qed.

End Starts.

(** * The claims *)

(** ** Construction *)

(** C8.  The constructor throws exactly when the recipient resolver and the
    user service are both absent, or the transport and the SMS service are
    both absent.  Otherwise it returns a service whose four collaborators
    are all set: the one supplied, or else the default built from the other
    member of the pair (which is then present). *)
Theorem constructor_validation {W C US}
  (MessageTemplateResolver : IMessageTemplateResolver.t W C)
  (RecipientResolver : option US -> IRecipientResolver.t W)
  (SmsMessageTransport : option (ISmsService.t W) -> IMessageTransport.t W)
  (args : BulkMessageServiceArgs W C US) :
  let new := constructor MessageTemplateResolver RecipientResolver
               SmsMessageTransport args in
  ((exists m, new = Throw m) <->
   (a_recipientResolver args = None /\ a_users args = None) \/
   (a_transport args = None /\ a_smsService args = None)) /\
  match new with
  | Throw _ => True
  | Ok service =>
      contextFactory service = a_contextFactory args /\
      templateResolver service =
        match a_templateResolver args with
        | Some t => t
        | None => MessageTemplateResolver
        end /\
      match a_recipientResolver args, a_users args with
      | Some r, _ => recipientResolver service = r
      | None, Some users => recipientResolver service = RecipientResolver (Some users)
      | None, None => False
      end /\
      match a_transport args, a_smsService args with
      | Some t, _ => transport service = t
      | None, Some sms => transport service = SmsMessageTransport (Some sms)
      | None, None => False
      end
  end.
Proof.
  destruct args as [cf tr t sms rr us]. unfold constructor; simpl.
  destruct rr, us, t, sms; simpl; (split; [split|]); try done;
    try (intros [m Hm]; discriminate);
    try (intros [[? ?]|[? ?]]; discriminate);
    try (intros _; eauto).
Qed.

Lemma constructor_validation_witness :
  exists service,
    constructor Sample.renderer Sample.defaultResolver Sample.defaultTransport
      Sample.argsWithUsersAndSms = Ok service /\
    recipientResolver service = Sample.defaultResolver (Some tt) /\
    transport service = Sample.defaultTransport (Some LocalSmsService).
Proof.
  pose proof (constructor_validation Sample.renderer Sample.defaultResolver
                Sample.defaultTransport Sample.argsWithUsersAndSms)
    as [_ (_ & _ & Hr & Ht)].
  eexists. split; [reflexivity|]. split; [exact Hr | exact Ht].
Defined.

(** ** Validation of the groups *)

(** C3.  When some requested group cannot be resolved, [send] throws an
    error whose message lists the quoted names of all the invalid groups;
    the log and the world are as before the call (no resolution, no
    rendering, no transport call), and no report is returned. *)
Theorem send_rejects_unresolvable_groups {W C}
  (this : BulkMessageService W C) (recipientGroups : list string)
  (template : string) (sched1 sched2 : list nat) (e : Env W C) :
  (exists g, g ∈ recipientGroups /\
     IRecipientResolver.canResolve (recipientResolver this) g = false) ->
  exists invalid,
    (forall g, g ∈ invalid <->
       g ∈ recipientGroups /\
       IRecipientResolver.canResolve (recipientResolver this) g = false) /\
    send this recipientGroups template sched1 sched2 e =
      (Throw ("Invalid recipients: " +:+
              String.concat ", " (map (fun g => "'" +:+ g +:+ "'") invalid)),
       e).
Proof.
  intros (g & Hg & Hcan).
  exists (List.filter
            (fun g => negb (IRecipientResolver.canResolve (recipientResolver this) g))
            recipientGroups).
  assert (forall g0, g0 ∈ List.filter
            (fun g => negb (IRecipientResolver.canResolve (recipientResolver this) g))
            recipientGroups <->
          g0 ∈ recipientGroups /\
          IRecipientResolver.canResolve (recipientResolver this) g0 = false) as Hin.
  { intros g0. rewrite !list_elem_of_In, filter_In, negb_true_iff. done. }
  split; [exact Hin|].
  apply send_invalid. intros Hnil.
  assert (g ∈ @nil string) as Habs by (rewrite <- Hnil; by apply Hin).
  by apply elem_of_nil in Habs.
Qed.

Lemma send_rejects_unresolvable_groups_witness :
  exists invalid,
    (forall g, g ∈ invalid <->
       g ∈ ["teamA"; "nonexistent-group"] /\
       IRecipientResolver.canResolve (recipientResolver Sample.service) g = false) /\
    send Sample.service ["teamA"; "nonexistent-group"] "Hi {{name}}" [] []
      Sample.env0 =
      (Throw ("Invalid recipients: " +:+
              String.concat ", " (map (fun g => "'" +:+ g +:+ "'") invalid)),
       Sample.env0).
Proof.
  apply (send_rejects_unresolvable_groups Sample.service).
  exists "nonexistent-group". split; [|reflexivity].
  apply list_elem_of_further, list_elem_of_here.
Defined.

(** ** Preview *)

Lemma previewMessage_calls {W C} (getPreviewUser : IUser)
  (this : BulkMessageService W C) (template : string) (e : Env W C) :
  exists l,
    calls (snd (previewMessage getPreviewUser this template e)) =
      calls e ++ CallCreateContext getPreviewUser :: l /\
    (l = [] \/ exists context, l = [CallTemplate context template]).
Proof.
  unfold previewMessage, createMessageForUser, bind, callCreateContext,
    callTemplate, logged, ret.
  destruct (IMessageContextFactory.createContextFromUser (contextFactory this)
              getPreviewUser (world e)) as [[context|m] w]; cbn [world calls].
  - destruct (IMessageTemplateResolver.resolve (templateResolver this)
                context template w) as [r w'].
    exists [CallTemplate context template]. cbn [snd calls].
    rewrite <- app_assoc. eauto.
  - exists []. eauto.
Qed.

(** C7.  [previewMessage] only calls the context factory and, when that
    succeeds, the template resolver: the transport and the recipient
    resolver are never called, and nothing but the log of these calls
    changes (there is no report or recipient list in its reach).  When the
    context factory and the template resolver answer the same whatever the
    world, two calls with the same template return the same result. *)
Theorem previewMessage_no_side_effect {W C} (getPreviewUser : IUser)
  (this : BulkMessageService W C) (template : string) :
  (forall e,
     let after := snd (previewMessage getPreviewUser this template e) in
     transportCalls (calls after) = transportCalls (calls e) /\
     resolveCalls (calls after) = resolveCalls (calls e) /\
     exists l,
       calls after = calls e ++ CallCreateContext getPreviewUser :: l /\
       (l = [] \/ exists context, l = [CallTemplate context template])) /\
  ((forall u w w',
      fst (IMessageContextFactory.createContextFromUser (contextFactory this) u w) =
      fst (IMessageContextFactory.createContextFromUser (contextFactory this) u w')) ->
   (forall c t w w',
      fst (IMessageTemplateResolver.resolve (templateResolver this) c t w) =
      fst (IMessageTemplateResolver.resolve (templateResolver this) c t w')) ->
   forall e1 e2,
     fst (previewMessage getPreviewUser this template e1) =
     fst (previewMessage getPreviewUser this template e2)).
Proof.
  split.
  - intros e after.
    destruct (previewMessage_calls getPreviewUser this template e)
      as (l & Hl & Hcases).
    unfold after. rewrite Hl. unfold transportCalls, resolveCalls.
    rewrite !omap_app, !omap_cons.
    split; [|split].
    + destruct Hcases as [->|[context ->]]; simpl; by rewrite !app_nil_r.
    + destruct Hcases as [->|[context ->]]; simpl; by rewrite !app_nil_r.
    + exists l. done.
  - intros Hcf Htr e1 e2.
    unfold previewMessage, createMessageForUser, bind, callCreateContext,
      callTemplate, logged, ret.
    pose proof (Hcf getPreviewUser (world e1) (world e2)) as H1.
    destruct (IMessageContextFactory.createContextFromUser (contextFactory this)
                getPreviewUser (world e1)) as [r1 w1].
    destruct (IMessageContextFactory.createContextFromUser (contextFactory this)
                getPreviewUser (world e2)) as [r2 w2].
    simpl in H1. subst r2. destruct r1 as [context|m]; [|done].
    cbn [world]. pose proof (Htr context template w1 w2) as H2.
    destruct (IMessageTemplateResolver.resolve (templateResolver this)
                context template w1) as [m1 w1'].
    destruct (IMessageTemplateResolver.resolve (templateResolver this)
                context template w2) as [m2 w2'].
    exact H2.
Qed.

Lemma previewMessage_no_side_effect_witness :
  let first := previewMessage Sample.previewUser Sample.service
                 "Hi {{name}}" Sample.env0 in
  transportCalls (calls (snd first)) = [] /\
  fst first = Ok "Hi John Doe" /\
  fst (previewMessage Sample.previewUser Sample.service "Hi {{name}}" (snd first))
    = fst first.
Proof.
  pose proof (previewMessage_no_side_effect Sample.previewUser Sample.service
                "Hi {{name}}") as [Hquiet Hsame].
  split; [exact (proj1 (Hquiet Sample.env0))|].
  split; [reflexivity|].
  apply Hsame; reflexivity.
Defined.

(** C9.  When the context factory fails on the preview user, or the
    template resolver fails on the context it returned, [previewMessage]
    ends with that very error: nothing catches it. *)
Theorem previewMessage_propagates_error {W C} (getPreviewUser : IUser)
  (this : BulkMessageService W C) (template : string) (e : Env W C)
  (message : string) :
  (fst (IMessageContextFactory.createContextFromUser (contextFactory this)
          getPreviewUser (world e)) = Throw message \/
   exists context w,
     IMessageContextFactory.createContextFromUser (contextFactory this)
       getPreviewUser (world e) = (Ok context, w) /\
     fst (IMessageTemplateResolver.resolve (templateResolver this)
            context template w) = Throw message) ->
  fst (previewMessage getPreviewUser this template e) = Throw message.
Proof.
  unfold previewMessage, createMessageForUser, bind, callCreateContext,
    callTemplate, logged, ret.
  intros [Hcf|(context & w & Hcf & Htr)].
  - destruct (IMessageContextFactory.createContextFromUser (contextFactory this)
                getPreviewUser (world e)) as [r w]. simpl in Hcf. by subst r.
  - rewrite Hcf. cbn [world].
    destruct (IMessageTemplateResolver.resolve (templateResolver this)
                context template w) as [r w']. exact Htr.
Qed.

Lemma previewMessage_propagates_error_witness :
  fst (previewMessage Sample.previewUser Sample.serviceNoContext
         "Hi {{name}}" Sample.env0) = Throw "no context" /\
  fst (previewMessage Sample.previewUser Sample.serviceBadTemplate
         "Hi {{name}}" Sample.env0) = Throw "bad template".
Proof.
  split.
  - apply previewMessage_propagates_error. left. reflexivity.
  - apply previewMessage_propagates_error. right.
    exists Sample.previewUser, tt. split; reflexivity.
Defined.

(** ** The report *)

(** C1.  In a report that [send] returns, the two counters are the lengths
    of the two lists; their sum is the number of distinct [_id]s among the
    users the groups resolved to, plus the number of groups whose
    resolution failed; each such [_id] occurs exactly once in [recipients]
    and [errors] taken together; and a group has as many [errors] entries as
    it has failed resolutions ([recipients] entries carry no group). *)
Theorem report_accounts_for_every_attempt {W C}
  (this : BulkMessageService W C) (recipientGroups : list string)
  (template : string) (sched1 sched2 : list nat) (e e' : Env W C)
  (report : BulkMessageReport) :
  send this recipientGroups template sched1 sched2 e = (Ok report, e') ->
  let tasks := resolutions this recipientGroups e in
  let attempted := remove_dups (_id <$> concat (groupUsers <$> tasks)) in
  numRecipients report = length (recipients report) /\
  numFailed report = length (errors report) /\
  numRecipients report + numFailed report =
    length attempted +
    length (filter (fun t => isOk (g_settled t) = false) tasks) /\
  (forall id, id ∈ attempted ->
     occurrences id (r_user <$> recipients report) +
     occurrences (Some id) (e_user <$> errors report) = 1) /\
  (forall g,
     occurrences (Some g) (e_recipientGroup <$> errors report) =
     length (filter (fun t => g_group t = g /\ isOk (g_settled t) = false) tasks)).
Proof.
  intros Hsend tasks attempted.
  pose proof (send_ok_valid this _ _ _ _ _ _ _ Hsend) as Hvalid.
  destruct (send_valid this recipientGroups template sched1 sched2 e Hvalid)
    as (attempts & Hrep & Hperm & _ & _ & _).
  rewrite Hsend in Hrep. cbn [fst] in Hrep. injection Hrep as ->.
  fold tasks in Hperm |- *.
  set (order := settleOrder sched1 tasks) in *.
  assert (order ≡ₚ tasks) as Horder by apply settleOrder_Permutation.
  pose proof (merged_ids tasks order Horder) as Hids. fold attempted in Hids.
  assert (_id <$> (a_recipient <$> attempts) ≡ₚ attempted) as Hatt
    by (by rewrite Hperm).
  cbn [numRecipients numFailed recipients errors].
  split; [done|]. split; [by rewrite length_app|]. split; [|split].
  - pose proof (attempts_split attempts) as Hsplit.
    rewrite <- group_errors_length, <- Horder, <- Hatt, !length_fmap. lia.
  - intros id Hid.
    rewrite fmap_app, occurrences_app, group_errors_no_user.
    rewrite Nat.add_0_l, attempts_by_id, (occurrences_Permutation _ _ _ Hatt).
    apply occurrences_NoDup; [apply NoDup_remove_dups|done].
  - intros g.
    rewrite fmap_app, occurrences_app, attempt_errors_no_group, Nat.add_0_r.
    rewrite group_errors_by_group. by rewrite Horder.
Qed.

Lemma report_accounts_for_every_attempt_witness :
  exists report e',
    send Sample.serviceFails2 ["teamA"; "broken"; "dup"] "Hi {{name}}"
      [2; 0] [1; 0; 1; 1] Sample.env0 = (Ok report, e') /\
    numRecipients report + numFailed report = 2 + 1 /\
    occurrences "2" (r_user <$> recipients report) +
    occurrences (Some "2") (e_user <$> errors report) = 1.
Proof.
  eexists _, _. split; [vm_compute; reflexivity|].
  pose proof (report_accounts_for_every_attempt Sample.serviceFails2
                ["teamA"; "broken"; "dup"] "Hi {{name}}" [2; 0] [1; 0; 1; 1]
                Sample.env0 _ _ eq_refl) as (_ & _ & Hsum & Hid & _).
  split; [exact Hsum|]. apply Hid. vm_compute.
  apply list_elem_of_further, list_elem_of_here.
Defined.

(** ** A group whose resolution fails *)

(** C5.  When every requested group can be resolved, [send] returns a
    report, whatever the resolutions do.  Its [errors] start with one entry
    per failed resolution, in the order the resolutions settled, each with
    [recipientGroup] set to the group, [user] and [name] null and the
    message of the failure; the entries after them are failed sends and carry
    no group.  [numFailed] counts one per failed resolution plus one per
    failed send, and a group has as many entries as failed resolutions. *)
Theorem group_failure_is_recorded_once {W C}
  (this : BulkMessageService W C) (recipientGroups : list string)
  (template : string) (sched1 sched2 : list nat) (e : Env W C) :
  (forall g, g ∈ recipientGroups ->
     IRecipientResolver.canResolve (recipientResolver this) g = true) ->
  let tasks := resolutions this recipientGroups e in
  exists report e' sendErrors,
    send this recipientGroups template sched1 sched2 e = (Ok report, e') /\
    errors report = omap groupError (settleOrder sched1 tasks) ++ sendErrors /\
    Forall (fun x => e_recipientGroup x = None /\ is_Some (e_user x)) sendErrors /\
    numFailed report =
      length (filter (fun t => isOk (g_settled t) = false) tasks) +
      length sendErrors /\
    (forall g m,
       mkGroupTask g (Throw m) ∈ tasks ->
       {| e_recipientGroup := Some g; e_user := None; e_name := None;
          e_message := m |} ∈ errors report) /\
    (forall x, x ∈ errors report -> e_recipientGroup x <> None ->
       exists g m,
         x = {| e_recipientGroup := Some g; e_user := None; e_name := None;
                e_message := m |} /\
         mkGroupTask g (Throw m) ∈ tasks) /\
    (forall g,
       occurrences (Some g) (e_recipientGroup <$> errors report) =
       length (filter (fun t => g_group t = g /\ isOk (g_settled t) = false) tasks)).
Proof.
  intros Hcan tasks. apply filter_invalid_nil in Hcan as Hvalid.
  destruct (send_valid this recipientGroups template sched1 sched2 e Hvalid)
    as (attempts & Hrep & _ & _ & _ & _).
  fold tasks in Hrep. set (order := settleOrder sched1 tasks) in *.
  assert (order ≡ₚ tasks) as Horder by apply settleOrder_Permutation.
  destruct (send this recipientGroups template sched1 sched2 e) as [r e'].
  cbn [fst] in Hrep. subst r.
  eexists _, e', (omap attemptError attempts). split; [reflexivity|].
  cbn [errors numFailed]. split; [done|]. split; [|split; [|split; [|split]]].
  - apply Forall_forall. intros x Hx.
    apply list_elem_of_omap in Hx as (a & _ & Ha).
    unfold attemptError in Ha. destruct (a_result a); simplify_eq/=. eauto.
  - by rewrite <- group_errors_length, Horder.
  - intros g m Hin. apply elem_of_app. left.
    apply list_elem_of_omap. exists (mkGroupTask g (Throw m)).
    split; [by rewrite Horder|done].
  - intros x Hx Hgroup. apply elem_of_app in Hx as [Hx|Hx].
    + apply list_elem_of_omap in Hx as ([g r] & Ht & Hg).
      unfold groupError in Hg. cbn [g_settled g_group] in Hg.
      destruct r as [l|m]; simplify_eq/=.
      exists g, m. split; [done|]. by rewrite <- Horder.
    + apply list_elem_of_omap in Hx as (a & _ & Ha).
      unfold attemptError in Ha. destruct (a_result a); simplify_eq/=.
  - intros g.
    rewrite fmap_app, occurrences_app, attempt_errors_no_group, Nat.add_0_r.
    rewrite group_errors_by_group. by rewrite Horder.
Qed.

Lemma group_failure_is_recorded_once_witness :
  exists report e' sendErrors,
    send Sample.service ["broken"; "teamA"] "Hi {{name}}" [1] [] Sample.env0
      = (Ok report, e') /\
    errors report =
      [ {| e_recipientGroup := Some "broken"; e_user := None; e_name := None;
           e_message := "lookup failed" |} ] ++ sendErrors /\
    numFailed report = 1 + length sendErrors.
Proof.
  destruct (group_failure_is_recorded_once Sample.service ["broken"; "teamA"]
              "Hi {{name}}" [1] [] Sample.env0)
    as (report & e' & sendErrors & Hsend & Herr & _ & Hnum & _).
  - intros g Hg. repeat (apply elem_of_cons in Hg as [->|Hg]; [reflexivity|]).
    by apply elem_of_nil in Hg.
  - exists report, e', sendErrors. split; [exact Hsend|].
    split; [exact Herr | exact Hnum].
Defined.

(** ** Deduplication *)

Lemma resolved_user_attempted {W C} (this : BulkMessageService W C)
  (groups : list string) (e : Env W C) g l id :
  mkGroupTask g (Ok l) ∈ resolutions this groups e ->
  id ∈ (_id <$> l) ->
  id ∈ (_id <$> concat (groupUsers <$> resolutions this groups e)).
Proof.
  intros Ht Hid. apply list_elem_of_fmap in Hid as (u & -> & Hu).
  apply list_elem_of_fmap_2, list_elem_of_In, in_concat.
  exists l. split; [|by apply list_elem_of_In].
  apply list_elem_of_In.
  change l with (groupUsers (mkGroupTask g (Ok l))).
  by apply list_elem_of_fmap_2.
Qed.

(** C4, as it stands, fails: when the context factory fails for the shared
    user there is no transport call for it and it is not counted in
    [numRecipients]. *)
Lemma shared_user_not_always_delivered :
  ~ sharedUserDeliveredOnce Sample.serviceNoContext ["a"; "b"] "Hi {{name}}"
      [] [] Sample.env0.
Proof.
  intros Hclaim.
  destruct (Hclaim "a" "b" [Sample.user1] [Sample.user1] "1" _ _
              ltac:(done)
              ltac:(vm_compute; apply list_elem_of_here)
              ltac:(vm_compute; apply list_elem_of_further, list_elem_of_here)
              ltac:(apply list_elem_of_here)
              ltac:(apply list_elem_of_here)
              eq_refl) as [Hsent _].
  vm_compute in Hsent. discriminate.
Qed.

(** C4, amended.  The users resolved are merged into one list: the
    concatenation of the resolved sequences, in the order the resolutions
    settle, with every later occurrence of an [_id] removed.  A user that
    two different requested groups resolve to is in that list once, gets
    one entry in [recipients] and [errors] taken together and at most one
    transport call; when context creation, rendering and transport succeed
    for it, it gets exactly one transport call and is counted once in
    [numRecipients]. *)
Theorem shared_user_is_attempted_once {W C}
  (this : BulkMessageService W C) (recipientGroups : list string)
  (template : string) (sched1 sched2 : list nat) (e : Env W C)
  (g1 g2 : string) (l1 l2 : list IUser) (id : string) :
  (forall g, g ∈ recipientGroups ->
     IRecipientResolver.canResolve (recipientResolver this) g = true) ->
  g1 <> g2 ->
  mkGroupTask g1 (Ok l1) ∈ resolutions this recipientGroups e ->
  mkGroupTask g2 (Ok l2) ∈ resolutions this recipientGroups e ->
  id ∈ (_id <$> l1) ->
  id ∈ (_id <$> l2) ->
  let resolved :=
    concat (groupUsers <$> settleOrder sched1 (resolutions this recipientGroups e)) in
  let merged := fst (fst (getRecipients this recipientGroups emptyReport sched1 e)) in
  merged = dedupById resolved /\
  NoDup (_id <$> merged) /\
  merged `sublist_of` resolved /\
  (forall before u after,
     resolved = before ++ u :: after -> _id u ∉ (_id <$> before) -> u ∈ merged) /\
  occurrences id (_id <$> merged) = 1 /\
  exists report e',
    send this recipientGroups template sched1 sched2 e = (Ok report, e') /\
    numRecipients report = length (recipients report) /\
    occurrences id (r_user <$> recipients report) +
    occurrences (Some id) (e_user <$> errors report) = 1 /\
    sentTo id (calls e') <= sentTo id (calls e) + 1 /\
    ((forall u, u ∈ merged -> _id u = id -> deliverable this template u) ->
     sentTo id (calls e') = sentTo id (calls e) + 1 /\
     occurrences id (r_user <$> recipients report) = 1).
Proof.
  intros Hcan _ Ht1 _ Hid1 _ resolved merged.
  apply filter_invalid_nil in Hcan as Hvalid.
  assert (merged = dedupById resolved) as Hm by apply getRecipients_merged.
  rewrite Hm. split; [done|].
  split; [apply dedupById_NoDup|].
  split; [apply dedupById_sublist|].
  split; [intros before u after -> Hu; by apply dedupById_first|].
  apply (attempted_once this recipientGroups template sched1 sched2 e id Hvalid).
  by eapply resolved_user_attempted.
Qed.

Lemma shared_user_is_attempted_once_witness :
  exists report e',
    send Sample.service ["a"; "b"] "Hi {{name}}" [1] [] Sample.env0
      = (Ok report, e') /\
    sentTo "1" (calls e') = 1 /\
    occurrences "1" (r_user <$> recipients report) = 1.
Proof.
  destruct (shared_user_is_attempted_once Sample.service ["a"; "b"]
              "Hi {{name}}" [1] [] Sample.env0 "a" "b"
              [Sample.user1] [Sample.user1] "1")
    as (_ & _ & _ & _ & _ & report & e' & Hsend & _ & _ & _ & Hdel).
  - intros g Hg. repeat (apply elem_of_cons in Hg as [->|Hg]; [reflexivity|]).
    by apply elem_of_nil in Hg.
  - done.
  - vm_compute. apply list_elem_of_here.
  - vm_compute. apply list_elem_of_further, list_elem_of_here.
  - apply list_elem_of_here.
  - apply list_elem_of_here.
  - exists report, e'. split; [exact Hsend|]. apply Hdel.
    intros u _ _. repeat split; intros; reflexivity.
Defined.

(** C10.  A user that occurs more than once in the sequence one group
    resolves to is added to the list of recipients once, by that group's
    own pass and in the merged list, and is sent to once: exactly one pass
    of [sendToRecipient] is started for it (one call of
    [createContextFromUser]), which leaves one entry in [recipients] and
    [errors] taken together and never calls the transport twice.  The
    transport is called exactly once for it, unless its message could not
    be built, in which case it is not called and the failure is in
    [errors]; when context creation, rendering and transport succeed for
    it, the transport is called exactly once and the user is once in
    [recipients]. *)
Theorem repeated_user_in_group_is_sent_once {W C}
  (this : BulkMessageService W C) (recipientGroups : list string)
  (template : string) (sched1 sched2 : list nat) (e : Env W C)
  (g : string) (l : list IUser) (id : string) :
  (forall g, g ∈ recipientGroups ->
     IRecipientResolver.canResolve (recipientResolver this) g = true) ->
  mkGroupTask g (Ok l) ∈ resolutions this recipientGroups e ->
  2 <= occurrences id (_id <$> l) ->
  let merged := fst (fst (getRecipients this recipientGroups emptyReport sched1 e)) in
  occurrences id
    (_id <$> allRecipients
       (addRecipientsFromGroup_resume
          {| allRecipients := []; recipientIds := ∅; report := emptyReport |}
          (mkGroupTask g (Ok l)))) = 1 /\
  occurrences id (_id <$> merged) = 1 /\
  exists report e',
    send this recipientGroups template sched1 sched2 e = (Ok report, e') /\
    startedFor id (calls e') = startedFor id (calls e) + 1 /\
    occurrences id (r_user <$> recipients report) +
    occurrences (Some id) (e_user <$> errors report) = 1 /\
    sentTo id (calls e') <= sentTo id (calls e) + 1 /\
    (sentTo id (calls e') = sentTo id (calls e) + 1 \/
     (sentTo id (calls e') = sentTo id (calls e) /\
      occurrences id (r_user <$> recipients report) = 0 /\
      occurrences (Some id) (e_user <$> errors report) = 1)) /\
    ((forall u, u ∈ merged -> _id u = id -> deliverable this template u) ->
     sentTo id (calls e') = sentTo id (calls e) + 1 /\
     occurrences id (r_user <$> recipients report) = 1).
Proof.
  intros Hcan Ht Htwice merged.
  apply filter_invalid_nil in Hcan as Hvalid.
  assert (id ∈ (_id <$> l)) as Hid by (apply occurrences_elem; lia).
  assert (id ∈ (_id <$> concat (groupUsers <$> resolutions this recipientGroups e)))
    as Hres by (by eapply resolved_user_attempted).
  split.
  - set (s0 := {| allRecipients := []; recipientIds := ∅; report := emptyReport |}).
    assert (storeOk s0) as Hs0 by apply storeOk_empty.
    change (addRecipientsFromGroup_resume s0 (mkGroupTask g (Ok l)))
      with (fold_left addRecipient l s0).
    destruct (fold_addRecipient l s0 Hs0) as (_ & Hall & _).
    rewrite Hall. unfold s0; simpl.
    rewrite filter_all by (intros v; apply not_elem_of_nil).
    apply occurrences_NoDup; [apply dedupById_NoDup|]. by apply dedupById_ids.
  - assert (merged = dedupById (concat (groupUsers <$>
              settleOrder sched1 (resolutions this recipientGroups e)))) as Hm
      by apply getRecipients_merged.
    rewrite Hm.
    destruct (attempted_once this recipientGroups template sched1 sched2 e id Hvalid Hres)
      as (Hone & report & e' & Hsend & _ & Htotal & Hle & Hdel).
    destruct (sent_or_recorded this recipientGroups template sched1 sched2 e id
                Hvalid Hres) as (report' & Hrep & Hstarted & Hcases).
    rewrite Hsend in Hrep, Hstarted, Hcases. cbn [fst snd] in Hrep, Hstarted, Hcases.
    injection Hrep as <-.
    split; [exact Hone|]. exists report, e'. done.
Qed.

Lemma repeated_user_in_group_is_sent_once_witness :
  exists report e',
    send Sample.service ["dup"] "Hi {{name}}" [] [] Sample.env0
      = (Ok report, e') /\
    startedFor "1" (calls e') = 1 /\
    sentTo "1" (calls e') = 1 /\
    occurrences "1" (r_user <$> recipients report) = 1.
Proof.
  destruct (repeated_user_in_group_is_sent_once Sample.service ["dup"]
              "Hi {{name}}" [] [] Sample.env0 "dup"
              [Sample.user1; Sample.user1; Sample.user2] "1")
    as (_ & _ & report & e' & Hsend & Hstarted & _ & _ & _ & Hdel).
  - intros g Hg. repeat (apply elem_of_cons in Hg as [->|Hg]; [reflexivity|]).
    by apply elem_of_nil in Hg.
  - vm_compute. apply list_elem_of_here.
  - vm_compute. lia.
  - exists report, e'. split; [exact Hsend|]. split; [exact Hstarted|].
    apply Hdel. intros u _ _. repeat split; intros; reflexivity.
Defined.

(** ** One failing transport call *)

(** C2.  Let every group resolve, let the merged list hold [N] users, and
    let context creation and rendering succeed for all of them and the
    transport for all but one, for which it fails.  Then [send] returns a
    report with [numRecipients = N - 1] and [numFailed = 1]; [errors] is the
    single entry of the failing user, with its [_id], its name and the
    message the transport failed with; [recipients] holds the entries of
    all the other users, and none for the failing one; and the transport was
    called for every user of the list. *)
Theorem one_transport_failure_is_isolated {W C}
  (this : BulkMessageService W C) (recipientGroups : list string)
  (template : string) (sched1 sched2 : list nat) (e : Env W C) (bad : IUser) :
  (forall g, g ∈ recipientGroups ->
     IRecipientResolver.canResolve (recipientResolver this) g = true) ->
  (forall t, t ∈ resolutions this recipientGroups e -> isOk (g_settled t) = true) ->
  let merged := fst (fst (getRecipients this recipientGroups emptyReport sched1 e)) in
  bad ∈ merged ->
  (forall u, u ∈ merged ->
     contextSucceeds this u /\ renderingSucceeds this template u) ->
  (forall u, u ∈ merged -> u <> bad -> transportSucceeds this u) ->
  transportFails this bad ->
  exists report e' m,
    send this recipientGroups template sched1 sched2 e = (Ok report, e') /\
    numRecipients report = length merged - 1 /\
    numFailed report = 1 /\
    errors report =
      [ {| e_recipientGroup := None; e_user := Some (_id bad);
           e_name := Some (name bad); e_message := m |} ] /\
    (exists message w,
       fst (IMessageTransport.sendMessage (transport this) bad message w)
       = Throw m) /\
    recipients report ≡ₚ
      entryOf <$> filter (fun u => _id u <> _id bad) merged /\
    (_id bad ∉ (r_user <$> recipients report)) /\
    (forall u, u ∈ merged ->
       exists message, (u, message) ∈ transportCalls (calls e')).
Proof.
  intros Hcan Hres merged Hbad Hrender Hgood Hfail.
  apply filter_invalid_nil in Hcan as Hvalid.
  assert (merged = dedupById (concat (groupUsers <$>
            settleOrder sched1 (resolutions this recipientGroups e)))) as Hm
    by apply getRecipients_merged.
  destruct (send_valid this recipientGroups template sched1 sched2 e Hvalid)
    as (attempts & Hrep & Hperm & Hj & Hcalls & _).
  rewrite <- Hm in Hperm.
  rewrite no_group_errors in Hrep; cycle 1.
  { intros t Ht. apply Hres. by rewrite <- (settleOrder_Permutation sched1). }
  assert (NoDup (_id <$> (a_recipient <$> attempts))) as Hnd.
  { rewrite Hperm, Hm. apply dedupById_NoDup. }
  destruct (attempts_one_of attempts bad Hnd) as (l1 & a & l2 & -> & Ha & Hothers).
  { by rewrite Hperm. }
  rewrite Forall_forall in Hj.
  assert (forall x, x ∈ l1 ++ a :: l2 -> a_recipient x ∈ merged) as Hin.
  { intros x Hx. rewrite <- Hperm. by apply list_elem_of_fmap_2. }
  assert (Forall (fun x => a_result x = Ok tt) (l1 ++ l2)) as Hok.
  { apply Forall_forall. intros x Hx.
    assert (x ∈ l1 ++ a :: l2) as Hx'.
    { apply elem_of_app in Hx as [Hx|Hx]; apply elem_of_app; [by left|].
      right. by apply list_elem_of_further. }
    apply (attempt_delivered this template); [by apply Hj|].
    destruct (Hrender _ (Hin x Hx')) as [Hc Hr].
    split; [done|]. split; [done|]. apply Hgood; [by apply Hin|].
    intros Heq. rewrite Forall_forall in Hothers.
    apply (Hothers x Hx). by rewrite Heq. }
  assert (a ∈ l1 ++ a :: l2) as Hain
    by (apply elem_of_app; right; apply list_elem_of_here).
  destruct (Hrender _ (Hin a Hain)) as [Hc Hr].
  destruct (attempt_transport_failed this template a (Hj a Hain) Hc Hr)
    as (message & m & w & Hsent & Hresult & Hthrow).
  { by rewrite Ha. }
  apply Forall_app in Hok as [Hok1 Hok2].
  destruct (attempts_all_delivered l1 Hok1) as [He1 Hr1].
  destruct (attempts_all_delivered l2 Hok2) as [He2 Hr2].
  destruct (send this recipientGroups template sched1 sched2 e) as [r e'].
  cbn [fst snd] in Hrep, Hcalls. subst r.
  eexists _, e', m. split; [reflexivity|].
  cbn [numRecipients numFailed errors recipients].
  rewrite !omap_app, !omap_cons, He1, He2, Hr1, Hr2.
  assert (attemptEntry a = None) as -> by (unfold attemptEntry; by rewrite Hresult).
  assert (attemptError a = Some {| e_recipientGroup := None; e_user := Some (_id bad);
                                   e_name := Some (name bad); e_message := m |}) as ->
    by (unfold attemptError; by rewrite Hresult, Ha).
  cbn [app length].
  rewrite <- Hperm, !length_fmap, !length_app, length_cons, !length_fmap.
  split; [lia|]. split; [done|]. split; [done|].
  split; [exists message, w; by rewrite <- Ha|].
  apply Forall_app in Hothers as [Ho1 Ho2].
  assert (filter (fun u => _id u <> _id bad) (a_recipient <$> l1 ++ a :: l2)
          = (a_recipient <$> l1) ++ (a_recipient <$> l2)) as Hfilter.
  { rewrite fmap_app, fmap_cons, filter_app, Ha.
    rewrite filter_cons_False by (intros Hne; by apply Hne).
    rewrite !filter_Forall_id; [done| |]; by apply Forall_fmap. }
  split; [|split].
  - rewrite Hfilter. by rewrite fmap_app.
  - rewrite <- fmap_app, <- list_fmap_compose.
    rewrite list_elem_of_fmap. intros (u & Hu & Huin).
    assert (Forall (fun u => _id u <> _id bad)
              ((a_recipient <$> l1) ++ (a_recipient <$> l2))) as Hall
      by (apply Forall_app; split; by apply Forall_fmap).
    rewrite Forall_forall in Hall. by apply (Hall u Huin).
  - intros u Hu. rewrite <- Hperm in Hu.
    apply list_elem_of_fmap in Hu as (x & -> & Hx).
    destruct (Hrender _ (Hin x Hx)) as [Hcx Hrx].
    destruct (attempt_reaches_transport this template x (Hj x Hx) Hcx Hrx)
      as (msg & _ & Hs & _).
    exists msg. rewrite Hcalls. apply elem_of_app. right.
    apply list_elem_of_omap. exists x. split; [done|].
    unfold attemptSent. by rewrite Hs.
Qed.

Lemma one_transport_failure_is_isolated_witness :
  exists report e' m,
    send Sample.serviceFails2 ["teamA"] "Hi {{name}}" [] [2; 0; 1] Sample.env0
      = (Ok report, e') /\
    numRecipients report = 1 /\
    numFailed report = 1 /\
    errors report =
      [ {| e_recipientGroup := None; e_user := Some "2"; e_name := Some "B";
           e_message := m |} ].
Proof.
  destruct (one_transport_failure_is_isolated Sample.serviceFails2 ["teamA"]
              "Hi {{name}}" [] [2; 0; 1] Sample.env0 Sample.user2)
    as (report & e' & m & Hsend & Hn & Hf & Herr & _).
  - intros g Hg. repeat (apply elem_of_cons in Hg as [->|Hg]; [reflexivity|]).
    by apply elem_of_nil in Hg.
  - intros t Ht. apply list_elem_of_In in Ht. vm_compute in Ht.
    destruct Ht as [<-|[]]. reflexivity.
  - vm_compute. apply list_elem_of_further, list_elem_of_here.
  - intros u _. split; intros ?; intros; reflexivity.
  - intros u Hu Hne. apply list_elem_of_In in Hu. vm_compute in Hu.
    destruct Hu as [<-|[<-|[]]]; [|done]. intros message w. reflexivity.
  - intros message w. reflexivity.
  - exists report, e', m. done.
Defined.

(** ** The example of the specification *)

Lemma settleOrder_singleton {A} sched (t : A) : settleOrder sched [t] = [t].
Proof. apply Permutation_singleton_r, settleOrder_Permutation. Qed.

(** C6, as it stands, fails: when the send to user 1 is started first but
    the send to user 2 is completed first, the two entries of [recipients]
    come in the other order. *)
Lemma example_report_depends_on_schedule :
  ~ returnsExactly Sample.service ["teamA"] "Hi {{name}}" Sample.env0
      {| errors := []; numFailed := 0; numRecipients := 2;
         recipients := [ {| r_user := "1"; r_name := "A" |};
                         {| r_user := "2"; r_name := "B" |} ] |}.
Proof.
  intros Hclaim. specialize (Hclaim [] [0; 1; 1; 1; 1]).
  vm_compute in Hclaim. discriminate.
Qed.

(** C6, amended.  For the groups [["teamA"]] resolving to user 1 (named A)
    and user 2 (named B), when context creation, rendering of the template
    and transport succeed for both, [send] returns a report with
    [numRecipients = 2], [numFailed = 0], no [errors], and the two entries
    in [recipients] in the order the sends were completed: one of the two
    orders under every schedule, and user 1 first when the sends run one
    after the other. *)
Theorem example_report {W C} (this : BulkMessageService W C) (e : Env W C)
  (u1 u2 : IUser) :
  _id u1 = "1" -> name u1 = "A" -> _id u2 = "2" -> name u2 = "B" ->
  IRecipientResolver.canResolve (recipientResolver this) "teamA" = true ->
  (forall w, fst (IRecipientResolver.resolve (recipientResolver this) "teamA" w)
             = Ok [u1; u2]) ->
  deliverable this "Hi {{name}}" u1 ->
  deliverable this "Hi {{name}}" u2 ->
  let entryA := {| r_user := "1"; r_name := "A" |} in
  let entryB := {| r_user := "2"; r_name := "B" |} in
  (forall sched1 sched2,
     exists report e',
       send this ["teamA"] "Hi {{name}}" sched1 sched2 e = (Ok report, e') /\
       numRecipients report = 2 /\
       numFailed report = 0 /\
       errors report = [] /\
       (recipients report = [entryA; entryB] \/
        recipients report = [entryB; entryA])) /\
  (forall sched1,
     fst (send this ["teamA"] "Hi {{name}}" sched1 [] e) =
     Ok {| errors := []; numFailed := 0; numRecipients := 2;
           recipients := [entryA; entryB] |}).
Proof.
  intros Hid1 Hn1 Hid2 Hn2 Hcan Hres Hd1 Hd2 entryA entryB.
  assert (List.filter
            (fun g => negb (IRecipientResolver.canResolve (recipientResolver this) g))
            ["teamA"] = []) as Hvalid by (simpl; by rewrite Hcan).
  assert (resolutions this ["teamA"] e = [mkGroupTask "teamA" (Ok [u1; u2])])
    as Htasks.
  { unfold resolutions. rewrite mapM_call_cons. cbn zeta. cbn [fst].
    by rewrite Hres. }
  assert (forall sched1,
            dedupById (concat (groupUsers <$>
              settleOrder sched1 (resolutions this ["teamA"] e))) = [u1; u2])
    as Hmerged.
  { intros sched1. rewrite Htasks, settleOrder_singleton. simpl.
    rewrite filter_cons_True by (rewrite Hid1, Hid2; done). done. }
  assert (forall sched1,
            omap groupError (settleOrder sched1 (resolutions this ["teamA"] e)) = [])
    as Hnoerr.
  { intros sched1. by rewrite Htasks, settleOrder_singleton. }
  assert (entryOf u1 = entryA) as He1 by (unfold entryOf; by rewrite Hid1, Hn1).
  assert (entryOf u2 = entryB) as He2 by (unfold entryOf; by rewrite Hid2, Hn2).
  assert (forall attempts,
            Forall (justified this "Hi {{name}}") attempts ->
            (forall a, a ∈ attempts -> a_recipient a = u1 \/ a_recipient a = u2) ->
            Forall (fun a => a_result a = Ok tt) attempts) as Hall.
  { intros attempts Hj Hin. rewrite Forall_forall in Hj.
    apply Forall_forall. intros a Ha.
    apply (attempt_delivered this "Hi {{name}}"); [by apply Hj|].
    destruct (Hin a Ha) as [->| ->]; done. }
  split.
  - intros sched1 sched2.
    destruct (send_valid this ["teamA"] "Hi {{name}}" sched1 sched2 e Hvalid)
      as (attempts & Hrep & Hperm & Hj & _).
    rewrite Hmerged in Hperm. rewrite Hnoerr in Hrep.
    assert (Forall (fun a => a_result a = Ok tt) attempts) as Hok.
    { apply Hall; [done|]. intros a Ha.
      assert (a_recipient a ∈ [u1; u2]) as Hin
        by (rewrite <- Hperm; by apply list_elem_of_fmap_2).
      apply elem_of_cons in Hin as [->|Hin]; [by left|].
      apply list_elem_of_singleton in Hin as ->. by right. }
    destruct (attempts_all_delivered attempts Hok) as [Hnone Hentries].
    rewrite Hnone, Hentries in Hrep.
    destruct (send this ["teamA"] "Hi {{name}}" sched1 sched2 e) as [r e'].
    cbn [fst] in Hrep. subst r. eexists _, e'. split; [reflexivity|].
    cbn [numRecipients numFailed errors recipients].
    symmetry in Hperm. apply Permutation_length_2_inv in Hperm.
    destruct Hperm as [-> | ->]; rewrite !fmap_cons, He1, He2; simpl; eauto.
  - intros sched1. rewrite (send_valid_eq this _ _ _ _ _ Hvalid).
    cbn zeta. cbn [fst]. rewrite Hmerged, Hnoerr.
    destruct (sendToRecipients_in_order this [u1; u2] "Hi {{name}}"
                {| errors := []; numFailed := length (@nil ErrorEntry);
                   numRecipients := 0; recipients := [] |}
                (snd (mapM (addRecipientsFromGroup_call this) ["teamA"] e)))
      as (attempts & Hrep & Heq & Hj).
    assert (Forall (fun a => a_result a = Ok tt) attempts) as Hok.
    { apply Hall; [done|]. intros a Ha.
      assert (a_recipient a ∈ [u1; u2]) as Hin
        by (rewrite <- Heq; by apply list_elem_of_fmap_2).
      apply elem_of_cons in Hin as [->|Hin]; [by left|].
      apply list_elem_of_singleton in Hin as ->. by right. }
    destruct (attempts_all_delivered attempts Hok) as [Hnone Hentries].
    rewrite Hrep, fold_recordAttempt, Hnone, Hentries, Heq.
    rewrite !fmap_cons, He1, He2. reflexivity.
Qed.

Lemma example_report_witness :
  fst (send Sample.service ["teamA"] "Hi {{name}}" [] [] Sample.env0) =
  Ok {| errors := []; numFailed := 0; numRecipients := 2;
        recipients := [ {| r_user := "1"; r_name := "A" |};
                        {| r_user := "2"; r_name := "B" |} ] |}.
Proof.
  apply (example_report Sample.service Sample.env0 Sample.user1 Sample.user2);
    try reflexivity; repeat split; intros; reflexivity.
Defined.

(** * Further properties *)

(** ** Loading the configuration *)

Section ConfigProperties.

Context {num : Type}.
Variable Number : string -> num.
Variable truthy : num -> bool.
Variable fourThousand : num.

Lemma orString_blank (env : gmap string string) k K d :
  orString (<[k := ""]> env !! K) d = orString (delete k env !! K) d.
Proof.
  destruct (decide (k = K)) as [->|Hne].
  - by rewrite lookup_insert_eq, lookup_delete_eq.
  - by rewrite lookup_insert_ne, lookup_delete_ne.
Qed.

Lemma portOf_blank (env : gmap string string) k K :
  portOf Number truthy fourThousand (<[k := ""]> env !! K) =
  portOf Number truthy fourThousand (delete k env !! K).
Proof.
  destruct (decide (k = K)) as [->|Hne].
  - by rewrite lookup_insert_eq, lookup_delete_eq.
  - by rewrite lookup_insert_ne, lookup_delete_ne.
Qed.

(** X17.  A variable set to the empty string is read like a variable that is not
    set: every field falls back to its default. *)
Theorem loadAppConfigFrom_blank_is_unset (env : gmap string string) (k : string) :
  loadAppConfigFrom Number truthy fourThousand (<[k := ""]> env) =
  loadAppConfigFrom Number truthy fourThousand (delete k env).
Proof.
  unfold loadAppConfigFrom. by rewrite !orString_blank, portOf_blank.
Qed.

(** X18.  Two environments that agree on the eleven variables read give the same
    configuration: no other variable has any influence. *)
Theorem loadAppConfigFrom_reads_only_its_keys (env env' : gmap string string) :
  (forall k, k ∈ configKeys -> env !! k = env' !! k) ->
  loadAppConfigFrom Number truthy fourThousand env =
  loadAppConfigFrom Number truthy fourThousand env'.
Proof.
  intros Hagree.
  assert (Forall (fun k => env !! k = env' !! k) configKeys) as Hall
    by (by apply Forall_forall).
  unfold configKeys in Hall. repeat (apply Forall_cons in Hall as [? Hall]).
  unfold loadAppConfigFrom. congruence.
Qed.

Lemma orString_not_blank v d : d <> "" -> orString v d <> "".
Proof.
  intros Hd. unfold orString. destruct v as [s|]; [|done]. by case_decide.
Qed.

Lemma append_not_blank (s t : string) : s <> "" -> s +:+ t <> "".
Proof. by destruct s. Qed.

(** X19.  Whatever the environment, the fields that have a non-empty default are
    never empty, and neither are the two URLs built on the base URL. *)
Theorem loadAppConfigFrom_never_blank (env : gmap string string) :
  let config := loadAppConfigFrom Number truthy fourThousand env in
  Forall (fun s => s <> "")
    [ dbName config; dbUri config; webAppBaseUrl config; smsProvider config;
      atUsername config; atWebhooksRoot config; flutterwaveWebhooksRoot config;
      flutterwaveLogoUrl config; flutterwaveRedirectUrl config ].
Proof.
  intros config. unfold config, loadAppConfigFrom. cbn [dbName dbUri webAppBaseUrl
    smsProvider atUsername atWebhooksRoot flutterwaveWebhooksRoot
    flutterwaveLogoUrl flutterwaveRedirectUrl].
  repeat (apply Forall_cons; split);
    first [ by apply Forall_nil_2
          | apply orString_not_blank; discriminate
          | apply append_not_blank, orString_not_blank; discriminate ].
Qed.

(** X20.  The SMS provider is not validated: the value of [SMS_PROVIDER] is taken
    as it is when it is not empty.  The configured provider is one of the
    two declared ones exactly when the variable is unset, empty, ["local"]
    or ["at"]. *)
Theorem smsProvider_is_not_validated (env : gmap string string) :
  let config := loadAppConfigFrom Number truthy fourThousand env in
  (forall s, env !! "SMS_PROVIDER" = Some s -> s <> "" -> smsProvider config = s) /\
  (smsProvider config ∈ ["local"; "at"] <->
   env !! "SMS_PROVIDER" ∈ [None; Some ""; Some "local"; Some "at"]).
Proof.
  intros config. unfold config, loadAppConfigFrom. cbn [smsProvider].
  unfold orString. split.
  - intros s -> Hs. by rewrite decide_False.
  - destruct (env !! "SMS_PROVIDER") as [s|].
    + case_decide as Hs.
      * subst s. split; intros _.
        -- apply list_elem_of_further, list_elem_of_here.
        -- apply list_elem_of_here.
      * rewrite !elem_of_cons, !elem_of_nil. split.
        -- intros [->|[->|[]]]; eauto.
        -- intros [?|[?|[?|[?|[]]]]]; simplify_eq; eauto.
    + split; intros _; apply list_elem_of_here.
Qed.

(** X21.  The port is [Number(PORT)] when [PORT] is set, not empty and read by
    [Number] as a truthy number, and [4000] in every other case ([PORT]
    unset, empty, or read as zero or [NaN]); so the port is never a falsy
    number. *)
Theorem port_is_never_falsy (env : gmap string string) :
  truthy fourThousand = true ->
  let config := loadAppConfigFrom Number truthy fourThousand env in
  truthy (port config) = true /\
  (forall s, env !! "PORT" = Some s -> s <> "" -> truthy (Number s) = true ->
     port config = Number s) /\
  (env !! "PORT" = None -> port config = fourThousand) /\
  (env !! "PORT" = Some "" -> port config = fourThousand) /\
  (forall s, env !! "PORT" = Some s -> truthy (Number s) = false ->
     port config = fourThousand) /\
  (port config <> fourThousand ->
   exists s, env !! "PORT" = Some s /\ s <> "" /\
             truthy (Number s) = true /\ port config = Number s).
Proof.
  intros H4000 config. unfold config, loadAppConfigFrom. cbn [port].
  unfold portOf. split; [|split; [|split; [|split; [|split]]]].
  - destruct (env !! "PORT") as [s|]; [|done].
    case_decide; [done|]. by destruct (truthy (Number s)) eqn:Ht.
  - intros s -> Hs Ht. by rewrite decide_False, Ht.
  - by intros ->.
  - by intros ->.
  - intros s -> Ht. case_decide; [done|]. by rewrite Ht.
  - destruct (env !! "PORT") as [s|]; [|done].
    case_decide as Hs; [done|].
    destruct (truthy (Number s)) eqn:Ht; [|done].
    intros _. exists s. done.
Qed.

End ConfigProperties.

Lemma port_is_never_falsy_witness :
  let config := loadAppConfigFrom SampleNumber.Number SampleNumber.truthy
                  (Some 4000%Z) SampleNumber.env1 in
  SampleNumber.truthy (port config) = true /\
  port config = SampleNumber.Number "8080" /\
  port (loadAppConfigFrom SampleNumber.Number SampleNumber.truthy
          (Some 4000%Z) (<["PORT" := "0"]> SampleNumber.env1)) = Some 4000%Z.
Proof.
  destruct (port_is_never_falsy SampleNumber.Number SampleNumber.truthy
              (Some 4000%Z) SampleNumber.env1 eq_refl) as (Htruthy & Hset & _).
  destruct (port_is_never_falsy SampleNumber.Number SampleNumber.truthy
              (Some 4000%Z) (<["PORT" := "0"]> SampleNumber.env1) eq_refl)
    as (_ & _ & _ & _ & Hzero & _).
  split; [exact Htruthy|]. split.
  - apply Hset; [reflexivity | discriminate | reflexivity].
  - apply (Hzero "0"); reflexivity.
Defined.

Lemma smsProvider_is_not_validated_witness :
  smsProvider (loadAppConfigFrom SampleNumber.Number SampleNumber.truthy
                 (Some 4000%Z) SampleNumber.env1) = "twilio".
Proof.
  apply (smsProvider_is_not_validated SampleNumber.Number SampleNumber.truthy
           (Some 4000%Z) SampleNumber.env1); [vm_compute; reflexivity | discriminate].
Defined.

Lemma loadAppConfigFrom_reads_only_its_keys_witness :
  loadAppConfigFrom SampleNumber.Number SampleNumber.truthy (Some 4000%Z)
    (<["HOME" := "/root"]> SampleNumber.env1) =
  loadAppConfigFrom SampleNumber.Number SampleNumber.truthy (Some 4000%Z)
    SampleNumber.env1.
Proof.
  apply loadAppConfigFrom_reads_only_its_keys.
  intros k Hk. apply lookup_insert_ne. intros <-.
  apply list_elem_of_In in Hk. vm_compute in Hk. intuition discriminate.
Defined.

(** ** The log of a call of [send] *)

Section Log.

Context {W C : Type}.
Variable this : BulkMessageService W C.

Implicit Types (e : Env W C) (groups : list string).

Lemma settleOrder_nil {A} sched : settleOrder sched (@nil A) = [].
Proof. by destruct sched. Qed.

Lemma sendToRecipients_nil template report0 sched e :
  sendToRecipients this [] template report0 sched e = (report0, e).
Proof.
  unfold sendToRecipients, run. cbn [fold_left signalEof queue newQueue fmap list_fmap].
  by rewrite runTasks_nil.
Qed.

Lemma sendToRecipients_calls rs template report0 sched e :
  exists rest,
    calls (snd (sendToRecipients this rs template report0 sched e)) =
      calls e ++ rest /\
    resolveCalls rest = [].
Proof.
  unfold sendToRecipients, run.
  apply (runTasks_invariant (sendToRecipient_step this template)
           (fun _ s => exists rest,
              calls (snd s) = calls e ++ rest /\ resolveCalls rest = [])).
  - done.
  - intros t rest0 [rep e1] (rest & Hrest & Hnone). cbn [snd] in Hrest.
    destruct t as [u | u [context|m] | u [message|m] | u message [[]|m]];
      unfold sendToRecipient_step, callCreateContext, callTemplate,
        callSendMessage, logged; try (exists rest; done).
    + destruct (IMessageContextFactory.createContextFromUser _ u (world e1)).
      exists (rest ++ [CallCreateContext u]). cbn [snd calls].
      rewrite Hrest, app_assoc, resolveCalls_snoc, Hnone. done.
    + destruct (IMessageTemplateResolver.resolve _ context template (world e1)).
      exists (rest ++ [CallTemplate context template]). cbn [snd calls].
      rewrite Hrest, app_assoc, resolveCalls_snoc, Hnone. done.
    + destruct (IMessageTransport.sendMessage _ u message (world e1)).
      exists (rest ++ [CallSendMessage u message]). cbn [snd calls].
      rewrite Hrest, app_assoc, resolveCalls_snoc, Hnone. done.
  - exists []. by rewrite app_nil_r.
Qed.

Lemma send_log groups template sched1 sched2 e :
  List.filter
    (fun g => negb (IRecipientResolver.canResolve (recipientResolver this) g))
    groups = [] ->
  exists rest,
    calls (snd (send this groups template sched1 sched2 e)) =
      calls e ++ (CallResolve <$> groups) ++ rest /\
    resolveCalls rest = [] /\
    transportCalls (calls (snd (send this groups template sched1 sched2 e))) =
      transportCalls (calls e) ++ transportCalls rest.
Proof.
  intros Hvalid. rewrite (send_valid_eq this _ _ _ _ _ Hvalid). cbn zeta. cbn [snd].
  destruct (mapM_resolve this groups e) as (_ & Hc & _ & _).
  destruct (sendToRecipients_calls
              (dedupById (concat (groupUsers <$>
                 settleOrder sched1 (resolutions this groups e))))
              template
              {| errors := omap groupError (settleOrder sched1 (resolutions this groups e));
                 numFailed := length (omap groupError
                                (settleOrder sched1 (resolutions this groups e)));
                 numRecipients := 0; recipients := [] |}
              sched2 (snd (mapM (addRecipientsFromGroup_call this) groups e)))
    as (rest & Hrest & Hnone).
  exists rest. rewrite Hrest, Hc. split; [by rewrite <- app_assoc|]. split; [done|].
  unfold transportCalls. rewrite !omap_app.
  destruct (calls_of_resolves (C:=C) groups) as [_ Ht].
  unfold transportCalls in Ht. by rewrite Ht, app_nil_r.
Qed.

End Log.

(** ** Nothing to send *)

(** X1.  [send] on an empty list of groups returns the empty report and calls
    no collaborator: the world and the log are as before. *)
Theorem send_no_groups {W C} (this : BulkMessageService W C)
  (template : string) (sched1 sched2 : list nat) (e : Env W C) :
  send this [] template sched1 sched2 e = (Ok emptyReport, e).
Proof.
  unfold send. cbn [List.filter length]. unfold bind at 1.
  unfold getRecipients, bind, ret. cbn [mapM]. unfold ret.
  rewrite settleOrder_nil. cbn [fold_left allRecipients report].
  by rewrite sendToRecipients_nil.
Qed.

(** X2.  When every requested group resolves to an empty sequence, [send]
    returns the empty report (an empty group is no failure), and the only
    calls made are the resolver's, one per group: no context is created, no
    template rendered, nothing sent. *)
Theorem send_empty_groups {W C} (this : BulkMessageService W C)
  (recipientGroups : list string) (template : string)
  (sched1 sched2 : list nat) (e : Env W C) :
  (forall g, g ∈ recipientGroups ->
     IRecipientResolver.canResolve (recipientResolver this) g = true) ->
  (forall t, t ∈ resolutions this recipientGroups e -> g_settled t = Ok []) ->
  exists e',
    send this recipientGroups template sched1 sched2 e = (Ok emptyReport, e') /\
    calls e' = calls e ++ (CallResolve <$> recipientGroups).
Proof.
  intros Hcan Hempty. apply filter_invalid_nil in Hcan as Hvalid.
  rewrite (send_valid_eq this _ _ _ _ _ Hvalid). cbn zeta.
  set (order := settleOrder sched1 (resolutions this recipientGroups e)).
  assert (forall t, t ∈ order -> g_settled t = Ok []) as Horder.
  { intros t Ht. apply Hempty. unfold order in Ht.
    by rewrite settleOrder_Permutation in Ht. }
  assert (concat (groupUsers <$> order) = [] /\ omap groupError order = [])
    as [-> ->].
  { clear -Horder. induction order as [|t ts IH]; [done|].
    destruct IH as [IH1 IH2].
    { intros t' Ht'. apply Horder. by apply list_elem_of_further. }
    pose proof (Horder t (list_elem_of_here _ _)) as Ht.
    rewrite fmap_cons, omap_cons. unfold groupUsers at 1, groupError at 1.
    rewrite Ht. simpl. by rewrite IH1, IH2. }
  cbn [dedupById length]. rewrite sendToRecipients_nil. cbn [fst snd].
  eexists. split; [reflexivity|].
  by destruct (mapM_resolve this recipientGroups e) as (_ & Hc & _).
Qed.

Lemma send_empty_groups_witness :
  exists e',
    send (mkService
            (IRecipientResolver.Build (fun _ => true) (fun _ w => (Ok [], w)))
            Sample.factory Sample.renderer Sample.transportOk)
      ["x"; "y"] "Hi {{name}}" [1] [3; 2] Sample.env0 = (Ok emptyReport, e') /\
    calls e' = calls Sample.env0 ++ (CallResolve <$> ["x"; "y"]).
Proof.
  apply send_empty_groups.
  - intros g _. reflexivity.
  - intros t Ht. apply list_elem_of_In in Ht. vm_compute in Ht.
    destruct Ht as [<-|[<-|[]]]; reflexivity.
Defined.

(** ** Order and number of the resolver calls *)

(** X3.  When validation passes, [send] calls the resolver exactly once for
    each entry of [recipientGroups], in the order of the list and before any
    other collaborator: a group named twice is resolved twice, and nothing
    is resolved once sending has begun. *)
Theorem resolver_called_once_per_group_first {W C}
  (this : BulkMessageService W C) (recipientGroups : list string)
  (template : string) (sched1 sched2 : list nat) (e : Env W C) :
  (forall g, g ∈ recipientGroups ->
     IRecipientResolver.canResolve (recipientResolver this) g = true) ->
  exists rest,
    calls (snd (send this recipientGroups template sched1 sched2 e)) =
      calls e ++ (CallResolve <$> recipientGroups) ++ rest /\
    resolveCalls rest = [].
Proof.
  intros Hcan. apply filter_invalid_nil in Hcan as Hvalid.
  destruct (send_log this recipientGroups template sched1 sched2 e Hvalid)
    as (rest & Hcalls & Hnone & _).
  exists rest. done.
Qed.

Lemma resolver_called_once_per_group_first_witness :
  resolveCalls
    (calls (snd (send Sample.service ["a"; "a"; "teamA"] "Hi {{name}}"
                   [2; 0] [1; 0; 3] Sample.env0))) = ["a"; "a"; "teamA"].
Proof.
  destruct (resolver_called_once_per_group_first Sample.service
              ["a"; "a"; "teamA"] "Hi {{name}}" [2; 0] [1; 0; 3] Sample.env0)
    as (rest & Hcalls & Hnone).
  - intros g Hg. repeat (apply elem_of_cons in Hg as [->|Hg]; [reflexivity|]).
    by apply elem_of_nil in Hg.
  - rewrite Hcalls. unfold resolveCalls in *. rewrite !omap_app, Hnone.
    reflexivity.
Defined.

(** ** Where the entries of the report and the transport calls come from *)

Section Provenance.

Context {W C : Type}.
Variable this : BulkMessageService W C.

Implicit Types (e : Env W C) (groups : list string) (a : Attempt).

Lemma send_attempts groups template sched1 sched2 e :
  List.filter
    (fun g => negb (IRecipientResolver.canResolve (recipientResolver this) g))
    groups = [] ->
  let order := settleOrder sched1 (resolutions this groups e) in
  let merged := fst (fst (getRecipients this groups emptyReport sched1 e)) in
  exists attempts rest,
    fst (send this groups template sched1 sched2 e) =
      Ok {| errors := omap groupError order ++ omap attemptError attempts;
            numFailed := length (omap groupError order) +
                         length (omap attemptError attempts);
            numRecipients := length (omap attemptEntry attempts);
            recipients := omap attemptEntry attempts |} /\
    a_recipient <$> attempts ≡ₚ merged /\
    NoDup (_id <$> merged) /\
    Forall (justified this template) attempts /\
    calls (snd (send this groups template sched1 sched2 e)) =
      calls e ++ (CallResolve <$> groups) ++ rest /\
    resolveCalls rest = [] /\
    transportCalls rest ≡ₚ omap attemptSent attempts.
Proof.
  intros Hvalid order merged.
  destruct (send_valid this groups template sched1 sched2 e Hvalid)
    as (attempts & Hrep & Hperm & Hj & Hcalls & _).
  destruct (send_log this groups template sched1 sched2 e Hvalid)
    as (rest & Hlog & Hnone & Htr).
  assert (merged = dedupById (concat (groupUsers <$> order))) as Hm
    by apply getRecipients_merged.
  exists attempts, rest. rewrite Hm.
  split; [exact Hrep|]. split; [exact Hperm|].
  split; [apply dedupById_NoDup|]. split; [exact Hj|].
  split; [exact Hlog|]. split; [exact Hnone|].
  rewrite Htr in Hcalls. by apply (inj (transportCalls (calls e) ++.)).
Qed.

Lemma same_id_same_user (l : list IUser) u v :
  NoDup (_id <$> l) -> u ∈ l -> v ∈ l -> _id u = _id v -> u = v.
Proof.
  induction l as [|x l IH]; intros Hnd Hu Hv Heq; [by apply elem_of_nil in Hu|].
  rewrite fmap_cons in Hnd. apply NoDup_cons in Hnd as [Hx Hnd].
  apply elem_of_cons in Hu as [->|Hu]; apply elem_of_cons in Hv as [->|Hv].
  - done.
  - exfalso. apply Hx. rewrite Heq. by apply list_elem_of_fmap_2.
  - exfalso. apply Hx. rewrite <- Heq. by apply list_elem_of_fmap_2.
  - by apply IH.
Qed.

Lemma attempt_sent_elem (attempts : list Attempt) u message :
  (u, message) ∈ omap attemptSent attempts <->
  exists a, a ∈ attempts /\ a_recipient a = u /\ a_sent a = Some message.
Proof.
  rewrite list_elem_of_omap. split.
  - intros (a & Ha & Hs). exists a. split; [done|].
    unfold attemptSent in Hs. destruct (a_sent a); simplify_eq/=. done.
  - intros (a & Ha & <- & Hs). exists a. split; [done|].
    unfold attemptSent. by rewrite Hs.
Qed.

Lemma attempt_entry_elem (attempts : list Attempt) x :
  x ∈ omap attemptEntry attempts <->
  exists a, a ∈ attempts /\ a_result a = Ok tt /\ x = entryOf (a_recipient a).
Proof.
  rewrite list_elem_of_omap. split.
  - intros (a & Ha & Hs). exists a. split; [done|].
    unfold attemptEntry in Hs. destruct (a_result a) as [[]|]; simplify_eq/=. done.
  - intros (a & Ha & Hr & ->). exists a. split; [done|].
    unfold attemptEntry. by rewrite Hr.
Qed.

Lemma attempt_error_elem (attempts : list Attempt) x :
  x ∈ omap attemptError attempts <->
  exists a m, a ∈ attempts /\ a_result a = Throw m /\
    x = {| e_recipientGroup := None; e_user := Some (_id (a_recipient a));
           e_name := Some (name (a_recipient a)); e_message := m |}.
Proof.
  rewrite list_elem_of_omap. split.
  - intros (a & Ha & Hs). unfold attemptError in Hs.
    destruct (a_result a) as [|m] eqn:Hr; simplify_eq/=. eauto.
  - intros (a & m & Ha & Hr & ->). exists a. split; [done|].
    unfold attemptError. by rewrite Hr.
Qed.

Lemma justified_ok a template :
  justified this template a -> a_result a = Ok tt ->
  exists message,
    a_sent a = Some message /\
    transportSettles this template (a_recipient a) message (Ok tt).
Proof.
  unfold justified. destruct (a_sent a) as [message|].
  - intros Hs Hr. rewrite Hr in Hs. eauto.
  - intros (m & Hm & _) Hr. congruence.
Qed.

Lemma justified_throw a template m :
  justified this template a -> a_result a = Throw m ->
  failureOf this template (a_recipient a) m.
Proof.
  unfold justified, failureOf. destruct (a_sent a) as [message|].
  - intros Hs Hr. rewrite Hr in Hs. right. right. eauto.
  - intros (m' & Hm & Hcases) Hr. assert (m' = m) as -> by congruence.
    destruct Hcases; eauto.
Qed.

End Provenance.

(** X4.  [send] calls the transport only for users of the merged recipient list,
    at most once per [_id], and only with a message that the template
    resolver returned for a context created from that very user. *)
Theorem transport_only_for_merged_recipients {W C}
  (this : BulkMessageService W C) (recipientGroups : list string)
  (template : string) (sched1 sched2 : list nat) (e : Env W C) :
  (forall g, g ∈ recipientGroups ->
     IRecipientResolver.canResolve (recipientResolver this) g = true) ->
  let merged := fst (fst (getRecipients this recipientGroups emptyReport sched1 e)) in
  exists rest,
    calls (snd (send this recipientGroups template sched1 sched2 e)) =
      calls e ++ (CallResolve <$> recipientGroups) ++ rest /\
    NoDup ((fun c => _id (fst c)) <$> transportCalls rest) /\
    (forall u message,
       (u, message) ∈ transportCalls rest ->
       u ∈ merged /\ templateSettles this template u (Ok message)).
Proof.
  intros Hcan merged. apply filter_invalid_nil in Hcan as Hvalid.
  destruct (send_attempts this recipientGroups template sched1 sched2 e Hvalid)
    as (attempts & rest & _ & Hperm & Hnd & Hj & Hlog & _ & Hsent).
  fold merged in Hperm, Hnd.
  exists rest. split; [exact Hlog|]. split.
  - rewrite Hsent. rewrite <- Hperm in Hnd. clear -Hnd.
    induction attempts as [|[u [message|] r] l IH]; [constructor| |].
    + rewrite !fmap_cons in Hnd. apply NoDup_cons in Hnd as [Hu Hnd].
      rewrite omap_cons. unfold attemptSent at 1. cbn [a_sent fmap option_fmap option_map].
      rewrite fmap_cons. apply NoDup_cons. split; [|by apply IH].
      cbn [fst a_recipient] in *. intros Hin. apply Hu.
      apply list_elem_of_fmap in Hin as ([v m] & Hv & Hvin).
      apply attempt_sent_elem in Hvin as (a & Ha & Hra & _).
      cbn [fst] in Hv. rewrite Hv, <- Hra.
      by apply list_elem_of_fmap_2, list_elem_of_fmap_2.
    + rewrite !fmap_cons in Hnd. apply NoDup_cons in Hnd as [_ Hnd].
      rewrite omap_cons. unfold attemptSent at 1. cbn [a_sent fmap option_fmap option_map].
      by apply IH.
  - intros u message Hin. rewrite Hsent in Hin.
    apply attempt_sent_elem in Hin as (a & Ha & <- & Hs).
    split; [rewrite <- Hperm; by apply list_elem_of_fmap_2|].
    rewrite Forall_forall in Hj. specialize (Hj a Ha).
    unfold justified in Hj. rewrite Hs in Hj. apply Hj.
Qed.

Lemma transport_only_for_merged_recipients_witness :
  exists rest,
    calls (snd (send Sample.service ["dup"; "a"] "Hi {{name}}" [1] [1; 0; 1]
                  Sample.env0)) =
      calls Sample.env0 ++ (CallResolve <$> ["dup"; "a"]) ++ rest /\
    NoDup ((fun c => _id (fst c)) <$> transportCalls rest).
Proof.
  destruct (transport_only_for_merged_recipients Sample.service ["dup"; "a"]
              "Hi {{name}}" [1] [1; 0; 1] Sample.env0)
    as (rest & Hlog & Hnd & _).
  - intros g Hg. repeat (apply elem_of_cons in Hg as [->|Hg]; [reflexivity|]).
    by apply elem_of_nil in Hg.
  - exists rest. done.
Defined.

(** X5.  Every entry of [recipients] stands for a delivery that was made: it is
    the entry of a user of the merged list for whom the transport was
    called, with the message rendered for that user, and answered without
    error. *)
Theorem recipients_entries_were_delivered {W C}
  (this : BulkMessageService W C) (recipientGroups : list string)
  (template : string) (sched1 sched2 : list nat) (e e' : Env W C)
  (report : BulkMessageReport) :
  send this recipientGroups template sched1 sched2 e = (Ok report, e') ->
  let merged := fst (fst (getRecipients this recipientGroups emptyReport sched1 e)) in
  forall x, x ∈ recipients report ->
    exists u message,
      u ∈ merged /\ x = entryOf u /\
      (u, message) ∈ transportCalls (calls e') /\
      transportSettles this template u message (Ok tt).
Proof.
  intros Hsend merged x Hx.
  pose proof (send_ok_valid this _ _ _ _ _ _ _ Hsend) as Hvalid.
  destruct (send_attempts this recipientGroups template sched1 sched2 e Hvalid)
    as (attempts & rest & Hrep & Hperm & _ & Hj & Hlog & _ & Hsent).
  fold merged in Hperm. rewrite Hsend in Hrep, Hlog. cbn [fst snd] in Hrep, Hlog.
  injection Hrep as ->. cbn [recipients] in Hx.
  apply attempt_entry_elem in Hx as (a & Ha & Hr & ->).
  rewrite Forall_forall in Hj.
  destruct (justified_ok this a template (Hj a Ha) Hr) as (message & Hs & Hsettles).
  exists (a_recipient a), message.
  split; [rewrite <- Hperm; by apply list_elem_of_fmap_2|]. split; [done|].
  split; [|done].
  rewrite Hlog. unfold transportCalls. rewrite !omap_app.
  apply elem_of_app. right. apply elem_of_app. right.
  fold (transportCalls rest). rewrite Hsent.
  apply attempt_sent_elem. eauto.
Qed.

Lemma recipients_entries_were_delivered_witness :
  exists u message,
    {| r_user := "1"; r_name := "A" |} = entryOf u /\
    (u, message) ∈
      transportCalls (calls (snd (send Sample.serviceFails2 ["teamA"]
                                    "Hi {{name}}" [] [1; 0] Sample.env0))).
Proof.
  destruct (recipients_entries_were_delivered Sample.serviceFails2 ["teamA"]
              "Hi {{name}}" [] [1; 0] Sample.env0 _ _ eq_refl
              {| r_user := "1"; r_name := "A" |})
    as (u & message & _ & Hx & Hin & _).
  - vm_compute. apply list_elem_of_here.
  - exists u, message. done.
Defined.

(** X6.  Every entry of [errors] that carries no group is the failure of a user
    of the merged list: it has that user's [_id] and name, and its message
    is the one with which the context factory, the template resolver or the
    transport failed for that user. *)
Theorem user_errors_are_real_failures {W C}
  (this : BulkMessageService W C) (recipientGroups : list string)
  (template : string) (sched1 sched2 : list nat) (e e' : Env W C)
  (report : BulkMessageReport) :
  send this recipientGroups template sched1 sched2 e = (Ok report, e') ->
  let merged := fst (fst (getRecipients this recipientGroups emptyReport sched1 e)) in
  forall x, x ∈ errors report -> e_recipientGroup x = None ->
    exists u,
      u ∈ merged /\
      e_user x = Some (_id u) /\ e_name x = Some (name u) /\
      failureOf this template u (e_message x).
Proof.
  intros Hsend merged x Hx Hgroup.
  pose proof (send_ok_valid this _ _ _ _ _ _ _ Hsend) as Hvalid.
  destruct (send_attempts this recipientGroups template sched1 sched2 e Hvalid)
    as (attempts & rest & Hrep & Hperm & _ & Hj & _).
  fold merged in Hperm. rewrite Hsend in Hrep. cbn [fst] in Hrep.
  injection Hrep as ->. cbn [errors] in Hx.
  apply elem_of_app in Hx as [Hx|Hx].
  - apply list_elem_of_omap in Hx as (t & _ & Ht).
    unfold groupError in Ht. destruct (g_settled t); simplify_eq/=.
  - apply attempt_error_elem in Hx as (a & m & Ha & Hr & ->).
    rewrite Forall_forall in Hj.
    exists (a_recipient a). cbn [e_user e_name e_message].
    split; [rewrite <- Hperm; by apply list_elem_of_fmap_2|].
    split; [done|]. split; [done|].
    exact (justified_throw this a template m (Hj a Ha) Hr).
Qed.

Lemma user_errors_are_real_failures_witness :
  exists u,
    Some "2" = Some (_id u) /\
    failureOf Sample.serviceFails2 "Hi {{name}}" u "network down".
Proof.
  destruct (user_errors_are_real_failures Sample.serviceFails2 ["teamA"]
              "Hi {{name}}" [] [1; 0] Sample.env0 _ _ eq_refl
              {| e_recipientGroup := None; e_user := Some "2";
                 e_name := Some "B"; e_message := "network down" |})
    as (u & _ & Hid & _ & Hfail).
  - vm_compute. apply list_elem_of_here.
  - reflexivity.
  - exists u. done.
Defined.

(** ** A user for whom the message cannot be built *)

Section EarlyFailure.

Context {W C : Type}.
Variable this : BulkMessageService W C.
Variable template : string.

Lemma justified_early_failure (a : Attempt) :
  justified this template a ->
  contextFails this (a_recipient a) \/
  renderingFails this template (a_recipient a) ->
  a_sent a = None /\ exists m, a_result a = Throw m.
Proof.
  unfold justified. destruct (a_sent a) as [message|].
  - intros [(context & w & [w0 Hc] & Hr) _] [Hfail|Hfail]; exfalso.
    + specialize (Hfail w0). rewrite Hc in Hfail. discriminate.
    + specialize (Hfail context w0 w Hc). rewrite Hr in Hfail. discriminate.
  - intros (m & Hm & _) _. eauto.
Qed.

End EarlyFailure.

(** X7.  When context creation fails for a user of the merged list whatever the
    world, or rendering fails for every context of that user, [send] never
    calls the transport for that user, gives it no entry in [recipients],
    and records its failure in [errors] with its [_id] and name. *)
Theorem no_message_no_transport_call {W C}
  (this : BulkMessageService W C) (recipientGroups : list string)
  (template : string) (sched1 sched2 : list nat) (e e' : Env W C)
  (report : BulkMessageReport) (u : IUser) :
  send this recipientGroups template sched1 sched2 e = (Ok report, e') ->
  u ∈ fst (fst (getRecipients this recipientGroups emptyReport sched1 e)) ->
  contextFails this u \/ renderingFails this template u ->
  sentTo (_id u) (calls e') = sentTo (_id u) (calls e) /\
  (_id u ∉ (r_user <$> recipients report)) /\
  exists m,
    {| e_recipientGroup := None; e_user := Some (_id u);
       e_name := Some (name u); e_message := m |} ∈ errors report.
Proof.
  intros Hsend Hu Hfail.
  pose proof (send_ok_valid this _ _ _ _ _ _ _ Hsend) as Hvalid.
  destruct (send_attempts this recipientGroups template sched1 sched2 e Hvalid)
    as (attempts & rest & Hrep & Hperm & Hnd & Hj & Hlog & _ & Hsent).
  set (merged := fst (fst (getRecipients this recipientGroups emptyReport sched1 e)))
    in *.
  rewrite Hsend in Hrep, Hlog. cbn [fst snd] in Hrep, Hlog. injection Hrep as ->.
  rewrite Forall_forall in Hj.
  assert (forall a, a ∈ attempts -> _id (a_recipient a) = _id u ->
            a_sent a = None /\ exists m, a_result a = Throw m) as Hearly.
  { intros a Ha Hid. apply (justified_early_failure this template a (Hj a Ha)).
    assert (a_recipient a = u) as ->; [|done].
    apply (same_id_same_user merged); [done| |done|done].
    rewrite <- Hperm. by apply list_elem_of_fmap_2. }
  split; [|split].
  - unfold sentTo. rewrite Hlog. unfold transportCalls. rewrite !omap_app.
    destruct (calls_of_resolves (C:=C) recipientGroups) as [_ Ht].
    unfold transportCalls in Ht. rewrite Ht. cbn [app].
    rewrite fmap_app, occurrences_app.
    fold (transportCalls rest).
    rewrite (occurrences_not_elem (_id u)
               ((fun c => _id (fst c)) <$> transportCalls rest)); [lia|].
    rewrite Hsent. intros Hin.
    apply list_elem_of_fmap in Hin as ([v m] & Hv & Hvin).
    apply attempt_sent_elem in Hvin as (a & Ha & Hra & Hs).
    cbn [fst] in Hv. destruct (Hearly a Ha) as [Hnone _]; [by rewrite Hra|].
    congruence.
  - cbn [recipients]. intros Hin.
    apply list_elem_of_fmap in Hin as (x & Hx & Hxin).
    apply attempt_entry_elem in Hxin as (a & Ha & Hr & ->).
    destruct (Hearly a Ha) as [_ [m Hm]]; [done|]. congruence.
  - rewrite <- Hperm in Hu. apply list_elem_of_fmap in Hu as (a & -> & Ha).
    destruct (Hearly a Ha eq_refl) as [_ [m Hm]].
    exists m. cbn [errors]. apply elem_of_app. right.
    apply attempt_error_elem. eauto.
Qed.

Lemma no_message_no_transport_call_witness :
  sentTo "1"
    (calls (snd (send Sample.serviceBadTemplate ["a"] "Hi {{name}}" [] []
                   Sample.env0))) = sentTo "1" (calls Sample.env0).
Proof.
  apply (no_message_no_transport_call Sample.serviceBadTemplate ["a"]
           "Hi {{name}}" [] [] Sample.env0 _ _ Sample.user1 eq_refl).
  - vm_compute. apply list_elem_of_here.
  - right. intros context w w' _. reflexivity.
Defined.

(** ** When nothing fails *)

Lemma attempts_sent_recipients (attempts : list Attempt) :
  Forall (fun a => is_Some (a_sent a)) attempts ->
  fst <$> omap attemptSent attempts = a_recipient <$> attempts.
Proof.
  induction 1 as [|[u sent r] l [message Hm] _ IH]; [done|].
  simpl in Hm. subst sent. rewrite omap_cons. unfold attemptSent at 1.
  cbn [a_sent a_recipient fmap option_fmap option_map].
  by rewrite !fmap_cons, IH.
Qed.

(** X8.  When every group resolves and context creation, rendering and transport
    succeed for every user of the merged list, [send] reports no failure,
    [recipients] holds exactly the entries of the merged list, and the
    transport was called exactly once for each of these users. *)
Theorem all_deliverable_all_delivered {W C}
  (this : BulkMessageService W C) (recipientGroups : list string)
  (template : string) (sched1 sched2 : list nat) (e : Env W C) :
  (forall g, g ∈ recipientGroups ->
     IRecipientResolver.canResolve (recipientResolver this) g = true) ->
  (forall t, t ∈ resolutions this recipientGroups e -> isOk (g_settled t) = true) ->
  let merged := fst (fst (getRecipients this recipientGroups emptyReport sched1 e)) in
  (forall u, u ∈ merged -> deliverable this template u) ->
  exists report e' rest,
    send this recipientGroups template sched1 sched2 e = (Ok report, e') /\
    numFailed report = 0 /\
    errors report = [] /\
    numRecipients report = length merged /\
    recipients report ≡ₚ entryOf <$> merged /\
    calls e' = calls e ++ (CallResolve <$> recipientGroups) ++ rest /\
    fst <$> transportCalls rest ≡ₚ merged.
Proof.
  intros Hcan Hres merged Hdel. apply filter_invalid_nil in Hcan as Hvalid.
  destruct (send_attempts this recipientGroups template sched1 sched2 e Hvalid)
    as (attempts & rest & Hrep & Hperm & _ & Hj & Hlog & _ & Hsent).
  fold merged in Hperm.
  rewrite no_group_errors in Hrep; cycle 1.
  { intros t Ht. apply Hres. by rewrite <- (settleOrder_Permutation sched1). }
  rewrite Forall_forall in Hj.
  assert (forall a, a ∈ attempts -> is_Some (a_sent a) /\ a_result a = Ok tt)
    as Hgood.
  { intros a Ha. apply (attempt_delivered this template); [by apply Hj|].
    apply Hdel. rewrite <- Hperm. by apply list_elem_of_fmap_2. }
  assert (Forall (fun a => a_result a = Ok tt) attempts) as Hok
    by (apply Forall_forall; intros a Ha; by apply Hgood).
  assert (Forall (fun a => is_Some (a_sent a)) attempts) as Hsome
    by (apply Forall_forall; intros a Ha; by apply Hgood).
  destruct (attempts_all_delivered attempts Hok) as [Hnone Hentries].
  rewrite Hnone, Hentries in Hrep.
  destruct (send this recipientGroups template sched1 sched2 e) as [r e'].
  cbn [fst snd] in Hrep, Hlog. subst r.
  eexists _, e', rest. split; [reflexivity|].
  cbn [numFailed errors numRecipients recipients].
  split; [done|]. split; [done|].
  split; [by rewrite !length_fmap, <- Hperm, length_fmap|].
  split; [by rewrite Hperm|]. split; [exact Hlog|].
  by rewrite Hsent, attempts_sent_recipients.
Qed.

Lemma all_deliverable_all_delivered_witness :
  exists report e' rest,
    send Sample.service ["dup"; "a"] "Hi {{name}}" [1] [1; 0; 1] Sample.env0
      = (Ok report, e') /\
    numFailed report = 0 /\
    errors report = [] /\
    numRecipients report = 2 /\
    calls e' = calls Sample.env0 ++ (CallResolve <$> ["dup"; "a"]) ++ rest.
Proof.
  destruct (all_deliverable_all_delivered Sample.service ["dup"; "a"]
              "Hi {{name}}" [1] [1; 0; 1] Sample.env0)
    as (report & e' & rest & Hsend & Hf & He & Hn & _ & Hlog & _).
  - intros g Hg. repeat (apply elem_of_cons in Hg as [->|Hg]; [reflexivity|]).
    by apply elem_of_nil in Hg.
  - intros t Ht. apply list_elem_of_In in Ht. vm_compute in Ht.
    destruct Ht as [<-|[<-|[]]]; reflexivity.
  - intros u _. repeat split; intros; reflexivity.
  - exists report, e', rest. done.
Defined.

(** ** Collaborators that do not depend on the world *)

Section Deterministic.

Context {W C : Type}.
Variable this : BulkMessageService W C.
Variable template : string.
Hypothesis Hindep : worldIndependent this.

Lemma justified_unique (a b : Attempt) :
  justified this template a -> justified this template b ->
  a_recipient a = a_recipient b -> a = b.
Proof.
  destruct Hindep as (Hc & Ht & Hs).
  assert (forall u c c', contextSettles this u c -> contextSettles this u c' -> c = c')
    as Hctx.
  { intros u c c' [w Hw] [w' Hw']. rewrite <- Hw, <- Hw'. apply Hc. }
  assert (forall u r r', templateSettles this template u r ->
            templateSettles this template u r' -> r = r') as Htpl.
  { intros u r r' (c & w & Hcs & Hr) (c' & w' & Hcs' & Hr').
    pose proof (Hctx u _ _ Hcs Hcs') as Heq. injection Heq as <-.
    rewrite <- Hr, <- Hr'. apply Ht. }
  assert (forall u r, contextSettles this u (Throw r) ->
            forall r', templateSettles this template u r' -> False) as Hno.
  { intros u r Hthrow r' (c & w & Hcs & _).
    pose proof (Hctx u _ _ Hthrow Hcs). discriminate. }
  destruct a as [u sa ra], b as [v sb rb]. unfold justified.
  cbn [a_sent a_recipient a_result]. intros Ha Hb <-.
  destruct sa as [ma|], sb as [mb|].
  - destruct Ha as [Hta [wa Hra]], Hb as [Htb [wb Hrb]].
    pose proof (Htpl u _ _ Hta Htb) as Heq. injection Heq as <-.
    f_equal. rewrite <- Hra, <- Hrb. apply Hs.
  - exfalso. destruct Ha as [Hta _], Hb as (m & _ & [Hb|Hb]).
    + by eapply Hno.
    + pose proof (Htpl u _ _ Hta Hb). discriminate.
  - exfalso. destruct Hb as [Htb _], Ha as (m & _ & [Ha|Ha]).
    + by eapply Hno.
    + pose proof (Htpl u _ _ Htb Ha). discriminate.
  - destruct Ha as (m & -> & Ha), Hb as (m' & -> & Hb). do 2 f_equal.
    destruct Ha as [Ha|Ha], Hb as [Hb|Hb].
    + pose proof (Hctx u _ _ Ha Hb) as Heq. by injection Heq.
    + exfalso. by eapply Hno.
    + exfalso. by eapply Hno.
    + pose proof (Htpl u _ _ Ha Hb) as Heq. by injection Heq.
Qed.

Lemma attempts_Permutation (l k : list Attempt) :
  Forall (justified this template) l ->
  Forall (justified this template) k ->
  a_recipient <$> l ≡ₚ a_recipient <$> k ->
  l ≡ₚ k.
Proof.
  revert k. induction l as [|a l IH]; intros k Hl Hk Hp.
  - rewrite fmap_nil in Hp. apply Permutation_nil_l in Hp. symmetry in Hp.
    apply fmap_nil_inv in Hp. by subst k.
  - apply Forall_cons in Hl as [Ha Hl].
    assert (a_recipient a ∈ a_recipient <$> k) as Hin
      by (rewrite <- Hp, fmap_cons; apply list_elem_of_here).
    apply list_elem_of_fmap in Hin as (b & Hab & Hb).
    assert (a = b) as <-.
    { apply justified_unique; [done| |done].
      by apply (proj1 (Forall_forall _ _) Hk). }
    apply list_elem_of_split in Hb as (k1 & k2 & ->).
    rewrite <- Permutation_middle. f_equiv. apply IH; [done| |].
    + apply Forall_app in Hk as [Hk1 Hk2]. apply Forall_cons in Hk2 as [_ Hk2].
      by apply Forall_app.
    + rewrite fmap_cons, fmap_app, fmap_cons, <- Permutation_middle in Hp.
      apply (inj (a_recipient a ::.)) in Hp. by rewrite fmap_app.
Qed.

End Deterministic.

(** X9.  When the answers of the context factory, the template resolver and the
    transport do not depend on the world, the schedule of the sends changes
    nothing but the order of the entries: two runs that differ only in that
    schedule return reports with the same counters and the same entries in
    [recipients] and in [errors], up to their order. *)
Theorem send_schedule_only_reorders {W C}
  (this : BulkMessageService W C) (recipientGroups : list string)
  (template : string) (sched1 sched2 sched2' : list nat) (e : Env W C) :
  (forall g, g ∈ recipientGroups ->
     IRecipientResolver.canResolve (recipientResolver this) g = true) ->
  worldIndependent this ->
  exists report report',
    fst (send this recipientGroups template sched1 sched2 e) = Ok report /\
    fst (send this recipientGroups template sched1 sched2' e) = Ok report' /\
    numRecipients report = numRecipients report' /\
    numFailed report = numFailed report' /\
    recipients report ≡ₚ recipients report' /\
    errors report ≡ₚ errors report'.
Proof.
  intros Hcan Hindep. apply filter_invalid_nil in Hcan as Hvalid.
  destruct (send_valid this recipientGroups template sched1 sched2 e Hvalid)
    as (l & Hrep & Hperm & Hj & _).
  destruct (send_valid this recipientGroups template sched1 sched2' e Hvalid)
    as (k & Hrep' & Hperm' & Hj' & _).
  assert (l ≡ₚ k) as Hlk.
  { apply (attempts_Permutation this template Hindep); [done|done|].
    by rewrite Hperm, Hperm'. }
  eexists _, _. split; [exact Hrep|]. split; [exact Hrep'|].
  cbn [numRecipients numFailed recipients errors].
  by rewrite !Hlk.
Qed.

Lemma send_schedule_only_reorders_witness :
  exists report report',
    fst (send Sample.serviceFails2 ["teamA"; "broken"] "Hi {{name}}" [1]
           [] Sample.env0) = Ok report /\
    fst (send Sample.serviceFails2 ["teamA"; "broken"] "Hi {{name}}" [1]
           [0; 1; 1; 1; 1] Sample.env0) = Ok report' /\
    numRecipients report = numRecipients report' /\
    numFailed report = numFailed report'.
Proof.
  destruct (send_schedule_only_reorders Sample.serviceFails2 ["teamA"; "broken"]
              "Hi {{name}}" [1] [] [0; 1; 1; 1; 1] Sample.env0)
    as (report & report' & H1 & H2 & Hn & Hf & _).
  - intros g Hg. repeat (apply elem_of_cons in Hg as [->|Hg]; [reflexivity|]).
    by apply elem_of_nil in Hg.
  - split; [intros ? [] [] | split; intros ? ? [] []]; reflexivity.
  - exists report, report'. done.
Defined.

Lemma createMessageForUser_settles {W C} (this : BulkMessageService W C)
  (template : string) u message (e0 : Env W C) :
  (forall u w w',
     fst (IMessageContextFactory.createContextFromUser (contextFactory this) u w) =
     fst (IMessageContextFactory.createContextFromUser (contextFactory this) u w')) ->
  (forall c t w w',
     fst (IMessageTemplateResolver.resolve (templateResolver this) c t w) =
     fst (IMessageTemplateResolver.resolve (templateResolver this) c t w')) ->
  templateSettles this template u (Ok message) ->
  fst (createMessageForUser this u template e0) = Ok message.
Proof.
  intros Hc Ht (context & w & [w0 Hctx] & Hr).
  unfold createMessageForUser, bind, callCreateContext, callTemplate, logged, ret.
  pose proof (Hc u w0 (world e0)) as Hc0. rewrite Hctx in Hc0.
  destruct (IMessageContextFactory.createContextFromUser (contextFactory this)
              u (world e0)) as [r1 w1]. cbn [fst] in Hc0. subst r1.
  cbn [world]. pose proof (Ht context template w w1) as Ht0. rewrite Hr in Ht0.
  destruct (IMessageTemplateResolver.resolve (templateResolver this)
              context template w1) as [r2 w2]. cbn [fst] in *. done.
Qed.

(** X10.  When the answers of the context factory and of the template resolver
    do not depend on the world, every message that [send] hands to the
    transport for a user is the message [previewMessage] returns when that
    user is the preview user: the preview shows what is sent. *)
Theorem sent_message_is_the_preview {W C}
  (this : BulkMessageService W C) (recipientGroups : list string)
  (template : string) (sched1 sched2 : list nat) (e e0 : Env W C) :
  (forall g, g ∈ recipientGroups ->
     IRecipientResolver.canResolve (recipientResolver this) g = true) ->
  (forall u w w',
     fst (IMessageContextFactory.createContextFromUser (contextFactory this) u w) =
     fst (IMessageContextFactory.createContextFromUser (contextFactory this) u w')) ->
  (forall c t w w',
     fst (IMessageTemplateResolver.resolve (templateResolver this) c t w) =
     fst (IMessageTemplateResolver.resolve (templateResolver this) c t w')) ->
  exists rest,
    calls (snd (send this recipientGroups template sched1 sched2 e)) =
      calls e ++ (CallResolve <$> recipientGroups) ++ rest /\
    forall u message,
      (u, message) ∈ transportCalls rest ->
      fst (previewMessage u this template e0) = Ok message.
Proof.
  intros Hcan Hc Ht. apply filter_invalid_nil in Hcan as Hvalid.
  destruct (send_attempts this recipientGroups template sched1 sched2 e Hvalid)
    as (attempts & rest & _ & _ & _ & Hj & Hlog & _ & Hsent).
  exists rest. split; [exact Hlog|].
  intros u message Hin. rewrite Hsent in Hin.
  apply attempt_sent_elem in Hin as (a & Ha & <- & Hs).
  rewrite Forall_forall in Hj. specialize (Hj a Ha).
  unfold justified in Hj. rewrite Hs in Hj. destruct Hj as [Htpl _].
  unfold previewMessage. by apply createMessageForUser_settles.
Qed.

Lemma sent_message_is_the_preview_witness :
  exists rest,
    calls (snd (send Sample.service ["a"] "Hi {{name}}" [] [] Sample.env0)) =
      calls Sample.env0 ++ (CallResolve <$> ["a"]) ++ rest /\
    forall u message,
      (u, message) ∈ transportCalls rest ->
      fst (previewMessage u Sample.service "Hi {{name}}" Sample.env0) = Ok message.
Proof.
  apply sent_message_is_the_preview.
  - intros g Hg. repeat (apply elem_of_cons in Hg as [->|Hg]; [reflexivity|]).
    by apply elem_of_nil in Hg.
  - intros ? [] []. reflexivity.
  - intros ? ? [] []. reflexivity.
Defined.

(** ** One recipient *)

Section SingleTask.

Context {K S : Type}.
Variable step : K -> S -> option K * S.
Variable size : K -> nat.
Hypothesis size_step : forall t s,
  match step t s with
  | (Some t', _) => size t' < size t
  | (None, _) => 0 < size t
  end.

Lemma runTasks_single k sched t (s : S) :
  runTasks step (k :: sched) [t] s = runTasks step (0 :: sched) [t] s.
Proof. cbn [runTasks length]. by rewrite Nat.mod_1_r. Qed.

Lemma runTasks_drained_more n j t (s : S) :
  size t <= n ->
  runTasks step (repeat 0 (n + j)) [t] s = runTasks step (repeat 0 n) [t] s.
Proof.
  intros Hn. rewrite repeat_app, runTasks_app.
  pose proof (runTasks_drain step size size_step n [t] s) as Hd.
  rewrite Hd by (simpl; lia). rewrite runTasks_nil.
  destruct (runTasks step (repeat 0 n) [t] s) as [p s']. cbn [fst snd] in *.
  rewrite Hd; [done|]. simpl; lia.
Qed.

Lemma runTasks_single_any sched n t (s : S) :
  size t <= n ->
  snd (runTasks step (sched ++ repeat 0 n) [t] s) =
  snd (runTasks step (repeat 0 n) [t] s).
Proof.
  revert t s. induction sched as [|k sched IH]; intros t s Hn; [done|].
  cbn [app]. rewrite runTasks_single, runTasks_head.
  pose proof (size_step t s) as Hs.
  destruct n as [|m]; [destruct (step t s) as [[t'|] s']; lia|].
  change (runTasks step (repeat 0 (Datatypes.S m)) [t] s)
    with (runTasks step (0 :: repeat 0 m) [t] s).
  rewrite runTasks_head.
  destruct (step t s) as [[t'|] s'].
  - rewrite IH by lia. f_equal.
    replace (Datatypes.S m) with (m + 1) by lia.
    apply runTasks_drained_more. lia.
  - by rewrite !runTasks_nil.
Qed.

End SingleTask.

(** X11.  With a single recipient the schedule is of no consequence:
    [sendToRecipients] is [createMessageForUser] followed by the transport
    call, the success recorded in [recipients] and any of the three
    failures recorded in [errors] with its message. *)
Theorem single_recipient_runs_in_sequence {W C}
  (this : BulkMessageService W C) (u : IUser) (template : string)
  (report0 : BulkMessageReport) (sched : list nat) (e : Env W C) :
  sendToRecipients this [u] template report0 sched e =
  let '(r, e1) := createMessageForUser this u template e in
  match r with
  | Throw m => (recordFailure u m report0, e1)
  | Ok message =>
      let '(r2, e2) := callSendMessage this u message e1 in
      match r2 with
      | Ok _ => (recordSent u report0, e2)
      | Throw m => (recordFailure u m report0, e2)
      end
  end.
Proof.
  rewrite <- sendToRecipient_alone. unfold sendToRecipients, run.
  cbn [fold_left push newQueue signalEof queue app length Nat.mul Nat.add].
  apply (runTasks_single_any (sendToRecipient_step this template) segments
           (segments_step this template) sched 4 (AtStart u) (report0, e)).
  cbn. lia.
Qed.

(** ** What the two parts of [send] do to the report *)

(** X12.  [sendToRecipients] only appends to the report it is given: the entries
    already in [errors] and [recipients] stay in front, each counter grows
    by the number of entries appended to its list, and every recipient
    adds one to exactly one of the two counters. *)
Theorem sendToRecipients_only_appends {W C}
  (this : BulkMessageService W C) (rs : list IUser) (template : string)
  (report0 : BulkMessageReport) (sched : list nat) (e : Env W C) :
  let report := fst (sendToRecipients this rs template report0 sched e) in
  errors report0 `prefix_of` errors report /\
  recipients report0 `prefix_of` recipients report /\
  numFailed report + length (errors report0) =
    numFailed report0 + length (errors report) /\
  numRecipients report + length (recipients report0) =
    numRecipients report0 + length (recipients report) /\
  numRecipients report + numFailed report =
    numRecipients report0 + numFailed report0 + length rs.
Proof.
  intros report.
  destruct (sendToRecipients_spec this rs template report0 sched e)
    as (attempts & Hrep & Hperm & _).
  unfold report. rewrite Hrep, fold_recordAttempt.
  cbn [errors recipients numFailed numRecipients].
  pose proof (attempts_split attempts) as Hsplit.
  assert (length attempts = length rs) as Hlen
    by (by rewrite <- Hperm, length_fmap).
  rewrite !length_app.
  split; [by apply prefix_app_r|]. split; [by apply prefix_app_r|]. lia.
Qed.

(** X13.  [getRecipients] creates no context, renders nothing and sends nothing:
    it calls the resolver once per group, in order; it leaves [recipients]
    and [numRecipients] alone and appends to [errors] one entry per failed
    resolution, each with its group and with [user] and [name] null. *)
Theorem getRecipients_only_adds_group_errors {W C}
  (this : BulkMessageService W C) (recipientGroups : list string)
  (report0 : BulkMessageReport) (sched : list nat) (e : Env W C) :
  let result := getRecipients this recipientGroups report0 sched e in
  let report := snd (fst result) in
  calls (snd result) = calls e ++ (CallResolve <$> recipientGroups) /\
  recipients report = recipients report0 /\
  numRecipients report = numRecipients report0 /\
  exists groupErrors,
    errors report = errors report0 ++ groupErrors /\
    numFailed report = numFailed report0 + length groupErrors /\
    length groupErrors =
      length (filter (fun t => isOk (g_settled t) = false)
                (resolutions this recipientGroups e)) /\
    Forall (fun x => e_recipientGroup x ∈ (Some <$> recipientGroups) /\
                     e_user x = None /\ e_name x = None) groupErrors.
Proof.
  intros result report. unfold report, result. rewrite getRecipients_spec.
  cbn [fst snd recipients numRecipients errors numFailed].
  destruct (mapM_resolve this recipientGroups e) as (Hg & Hc & _ & _).
  split; [exact Hc|]. split; [done|]. split; [done|].
  set (order := settleOrder sched (resolutions this recipientGroups e)).
  assert (order ≡ₚ resolutions this recipientGroups e) as Horder
    by apply settleOrder_Permutation.
  exists (omap groupError order). split; [done|]. split; [done|].
  split; [by rewrite group_errors_length, Horder|].
  apply Forall_forall. intros x Hx.
  apply list_elem_of_omap in Hx as ([g r] & Ht & Hx).
  unfold groupError in Hx. cbn [g_settled g_group] in Hx.
  destruct r as [l|m]; simplify_eq/=. split; [|done].
  apply list_elem_of_fmap_2. rewrite <- Hg.
  rewrite Horder in Ht. by apply (list_elem_of_fmap_2 g_group) in Ht.
Qed.

(** ** The merged list and the order of the resolutions *)

Lemma dedupById_distinct (l : list IUser) :
  NoDup (_id <$> l) -> dedupById l = l.
Proof.
  induction l as [|u l IH]; [done|].
  rewrite fmap_cons, NoDup_cons. intros [Hu Hl].
  simpl. rewrite IH by done. f_equal.
  apply filter_Forall_id, Forall_forall. intros v Hv Heq.
  apply Hu. rewrite <- Heq. by apply list_elem_of_fmap_2.
Qed.

(** X14.  The order in which the group resolutions settle decides the order of
    the merged list, never which [_id]s are in it: under every schedule the
    merged list holds each [_id] of the resolved users exactly once, so two
    schedules give lists with the same [_id]s, each once. *)
Theorem merged_ids_do_not_depend_on_order {W C}
  (this : BulkMessageService W C) (recipientGroups : list string)
  (report0 : BulkMessageReport) (sched sched' : list nat) (e : Env W C) :
  let ids := fun s =>
    _id <$> fst (fst (getRecipients this recipientGroups report0 s e)) in
  let resolved := _id <$> concat (groupUsers <$> resolutions this recipientGroups e) in
  NoDup (ids sched) /\
  NoDup (ids sched') /\
  (forall id, id ∈ ids sched <-> id ∈ resolved) /\
  (forall id, occurrences id (ids sched) = if decide (id ∈ resolved) then 1 else 0) /\
  ids sched ≡ₚ remove_dups resolved /\
  ids sched ≡ₚ ids sched'.
Proof.
  intros ids resolved.
  assert (forall s, ids s ≡ₚ remove_dups resolved) as Hids.
  { intros s. unfold ids. rewrite getRecipients_merged.
    apply merged_ids, settleOrder_Permutation. }
  assert (forall s, NoDup (ids s)) as Hnd.
  { intros s. rewrite Hids. apply NoDup_remove_dups. }
  assert (forall id, id ∈ ids sched <-> id ∈ resolved) as Hin.
  { intros id. by rewrite Hids, elem_of_remove_dups. }
  split; [apply Hnd|]. split; [apply Hnd|]. split; [exact Hin|].
  split; [|split; [apply Hids | by rewrite !Hids]].
  intros id. case_decide as Hid.
  - apply occurrences_NoDup; [apply Hnd | by apply Hin].
  - apply occurrences_not_elem. by rewrite Hin.
Qed.

(** X15.  When no [_id] occurs twice among the users the groups resolve to,
    nothing is dropped: the merged list holds exactly the resolved users,
    and holds them in the order of the request when the resolutions settle
    in that order. *)
Theorem distinct_users_are_all_kept {W C}
  (this : BulkMessageService W C) (recipientGroups : list string)
  (report0 : BulkMessageReport) (sched : list nat) (e : Env W C) :
  let resolved := concat (groupUsers <$> resolutions this recipientGroups e) in
  NoDup (_id <$> resolved) ->
  fst (fst (getRecipients this recipientGroups report0 sched e)) ≡ₚ resolved /\
  fst (fst (getRecipients this recipientGroups report0 [] e)) = resolved.
Proof.
  intros resolved Hnd. rewrite !getRecipients_merged.
  assert (concat (groupUsers <$>
            settleOrder sched (resolutions this recipientGroups e)) ≡ₚ resolved)
    as Hperm.
  { apply concat_Permutation. by rewrite settleOrder_Permutation. }
  split.
  - rewrite dedupById_distinct; [done|]. by rewrite Hperm.
  - cbn [settleOrder]. by apply dedupById_distinct.
Qed.

Lemma distinct_users_are_all_kept_witness :
  fst (fst (getRecipients Sample.service ["teamA"; "broken"] emptyReport []
              Sample.env0)) = [Sample.user1; Sample.user2].
Proof.
  apply (distinct_users_are_all_kept Sample.service ["teamA"; "broken"]
           emptyReport [] Sample.env0).
  vm_compute. repeat constructor; rewrite ?elem_of_cons, ?elem_of_nil;
    intuition discriminate.
Defined.

(** ** The messages of the constructor *)

(** X16.  The constructor tests the recipient pair first: when the resolver and
    the user service are both absent the message names them, whatever the
    transport pair; the message about the transport is only given when one
    of the first pair is present. *)
Theorem constructor_error_messages {W C US}
  (MessageTemplateResolver : IMessageTemplateResolver.t W C)
  (RecipientResolver : option US -> IRecipientResolver.t W)
  (SmsMessageTransport : option (ISmsService.t W) -> IMessageTransport.t W)
  (args : BulkMessageServiceArgs W C US) (m : string) :
  constructor MessageTemplateResolver RecipientResolver SmsMessageTransport args
    = Throw m ->
  (a_recipientResolver args = None /\ a_users args = None /\
   m = "Bulk message args must provide either recipientsResolver or users") \/
  (~ (a_recipientResolver args = None /\ a_users args = None) /\
   a_transport args = None /\ a_smsService args = None /\
   m = "Bulk message args must provide either transport or smsProvider").
Proof.
  destruct args as [cf tr t sms rr us]. unfold constructor; simpl.
  destruct rr, us, t, sms; simpl; intros Hm; simplify_eq;
    first [ left; done | right; repeat split; try done; intros [? ?]; done ].
Qed.

Lemma constructor_error_messages_witness :
  constructor Sample.renderer Sample.defaultResolver Sample.defaultTransport
    (mkArgs Sample.factory None None None None None) =
  Throw "Bulk message args must provide either recipientsResolver or users".
Proof.
  destruct (constructor_error_messages Sample.renderer Sample.defaultResolver
              Sample.defaultTransport
              (mkArgs Sample.factory None None None None None) _ eq_refl)
    as [(_ & _ & Hm)|(Hn & _)].
  - reflexivity.
  - exfalso. apply Hn. done.
Defined.
